(** * Lifecycle core of the Firestore C++ client and of the thread handle

    Shallow embedding of [firestore/src/common/firestore.cc] (the process-wide
    instance cache, construction, teardown and the public entry points of
    [firebase::firestore::Firestore]) and of the thread-handle tests
    ([app/src/thread.h] exercised by the gtest file of the repository).

    Pointers are addresses in [N]; address [0] is [nullptr].  The global
    variables of the translation unit, the objects on the free store and the
    cleanup notifiers of the owning [App]s are fields of one explicit state
    that every operation threads through; a trace of events records the order
    in which collaborators are called. *)

From stdpp Require Import gmap strings list.
From Stdlib Require Import Ascii String.

Module Firestore.

#[local] Open Scope string_scope.

(** ** Values *)

Definition nullptr : N := 0%N.

(** [firebase::InitResult], the two values the file uses. *)
Inductive InitResult :=
| kInitResultSuccess
| kInitResultFailedMissingDependency.

(** The platform the library is compiled for: the preprocessor symbols that
    [GetPlatform] tests, in the order it tests them. *)
Inductive Platform :=
| PlatformAndroid | PlatformIOS | PlatformOSX | PlatformWindows
| PlatformLinux | PlatformOther.

Definition GetPlatform (p : Platform) : string :=
  match p with
  | PlatformAndroid => "gl-android/"
  | PlatformIOS => "gl-ios/"
  | PlatformOSX => "gl-macos/"
  | PlatformWindows => "gl-windows/"
  | PlatformLinux => "gl-linux/"
  | PlatformOther => ""
  end.

(** How a call can end without returning.  [InvalidArgument] is what
    [SimpleThrowInvalidArgument] raises, [HardAssertFailed] a violated
    [SIMPLE_HARD_ASSERT], [AssertFailed] a violated [assert] of <cassert>.
    [InvalidObject] marks a member call through a pointer that designates no
    live object, which C++ leaves undefined. *)
Inductive Failure :=
| InvalidArgument (message : string)
| HardAssertFailed (message : string)
| AssertFailed
| InvalidObject.

(** Modelled from the spec: [SimpleThrowInvalidArgument] (exception_common.h)
    and [SIMPLE_HARD_ASSERT] (hard_assert_common.h) are not part of the
    sources.  InvalidArgument is "surfaced immediately to the caller as a
    recoverable error at the call site"; a violated assertion is "fatal". *)
Definition is_fatal (e : Failure) : bool :=
  match e with
  | InvalidArgument _ => false
  | HardAssertFailed _ | AssertFailed | InvalidObject => true
  end.

(** [Settings]: default constructed, or set by the user. *)
Inductive Settings :=
| Settings_default
| Settings_custom (host : string).

(** The black box [FirestoreInternal]: the members this file reads. *)
Record FirestoreInternal := mkInternal {
  fi_app : N;                  (* app() *)
  fi_initialized : bool;       (* initialized() *)
  fi_firestore_public : N;     (* set_firestore_public *)
  fi_listeners : list N;       (* listener registrations, ClearListeners *)
  fi_cleanup : list N;         (* objects of cleanup(), CleanupAll *)
  fi_settings : Settings       (* settings(), set_settings *)
}.

(** A [Firestore] object: its only data member is [internal_]. *)
Record FirestoreObj := mkFirestore {
  internal_ : option FirestoreInternal
}.

(** Calls that reach the backend through [internal_]. *)
Inductive BackendCall :=
| CallRunTransaction (update : N)
| CallDisableNetwork
| CallEnableNetwork
| CallTerminate
| CallWaitForPendingWrites
| CallClearPersistence
| CallLoadBundle (bundle : string)
| CallLoadBundleProgress (bundle : string) (progress_callback : N)
| CallNamedQuery (query_name : string).

(** [Future<T>]: either [FailedFuture<T>()] or the future of a backend call
    issued on behalf of the given [Firestore]. *)
Inductive Future :=
| FailedFuture
| BackendFuture (this : N) (call : BackendCall).

Inductive CollectionReference :=
| CollectionReference_default
| CollectionReference_of (this : N) (collection_path : string).

Inductive DocumentReference :=
| DocumentReference_default
| DocumentReference_of (this : N) (document_path : string).

Inductive Query :=
| Query_default
| Query_group (this : N) (collection_id : string).

Inductive WriteBatch :=
| WriteBatch_default
| WriteBatch_of (this : N).

Inductive ListenerRegistration :=
| ListenerRegistration_default
| ListenerRegistration_of (this : N) (callback : N).

(** ** Events *)

Inductive Event :=
| EvLock                                  (* MutexLock constructed *)
| EvUnlock                                (* MutexLock destroyed *)
| EvCacheAlloc                            (* g_firestores = new std::map *)
| EvCacheFree                             (* delete g_firestores *)
| EvCacheEmplace (app this : N)           (* emplace(app, firestore) *)
| EvCacheErase (app : N)                  (* erase(app) *)
| EvNew (this : N)                        (* new Firestore *)
| EvDelete (this : N)                     (* storage of a Firestore freed *)
| EvRegisterObject (app this : N)         (* CleanupNotifier::RegisterObject *)
| EvUnregisterObject (app this : N)       (* CleanupNotifier::UnregisterObject *)
| EvClearListeners (this : N)             (* internal_->ClearListeners() *)
| EvCleanupAll (this : N)                 (* internal_->cleanup().CleanupAll() *)
| EvDeleteInternal (this : N)             (* delete internal_ *)
| EvLogWarning (this app : N)             (* LogWarning of the owner callback *)
| EvBackend (this : N) (call : BackendCall).

Global Instance BackendCall_eq_dec : EqDecision BackendCall.
Proof. solve_decision. Defined.
Global Instance Event_eq_dec : EqDecision Event.
Proof. solve_decision. Defined.
Global Instance InitResult_eq_dec : EqDecision InitResult.
Proof. solve_decision. Defined.

(** ** State *)

Record State := mkState {
  g_firestores : option (gmap N N);   (* the global map, None when nullptr *)
  lock_depth : nat;                   (* holds of the recursive g_firestores_lock *)
  heap : gmap N FirestoreObj;         (* live Firestore objects *)
  notifiers : gmap N (list N);        (* per owner: objects its CleanupNotifier holds *)
  client_language : string;           (* FirestoreInternal::SetClientLanguage *)
  platform : Platform;                (* build constant *)
  compiler_info : string;             (* GetFullCompilerInfo(), build constant *)
  trace : list Event
}.

Definition initial_state (p : Platform) (ci : string) : State :=
  mkState None 0 ∅ ∅ "" p ci [].

Definition set_g_firestores (c : option (gmap N N)) (s : State) : State :=
  mkState c (lock_depth s) (heap s) (notifiers s) (client_language s)
          (platform s) (compiler_info s) (trace s).

Definition set_lock_depth (d : nat) (s : State) : State :=
  mkState (g_firestores s) d (heap s) (notifiers s) (client_language s)
          (platform s) (compiler_info s) (trace s).

Definition set_heap (h : gmap N FirestoreObj) (s : State) : State :=
  mkState (g_firestores s) (lock_depth s) h (notifiers s) (client_language s)
          (platform s) (compiler_info s) (trace s).

Definition set_notifiers (n : gmap N (list N)) (s : State) : State :=
  mkState (g_firestores s) (lock_depth s) (heap s) n (client_language s)
          (platform s) (compiler_info s) (trace s).

Definition set_client_language (l : string) (s : State) : State :=
  mkState (g_firestores s) (lock_depth s) (heap s) (notifiers s) l
          (platform s) (compiler_info s) (trace s).

Definition emit (e : Event) (s : State) : State :=
  mkState (g_firestores s) (lock_depth s) (heap s) (notifiers s)
          (client_language s) (platform s) (compiler_info s)
          (trace s ++ [e])%list.

(** ** The monad of the calls: state passing with failure *)

Inductive Outcome (A : Type) : Type :=
| Ok (a : A) (s : State)
| Failed (e : Failure) (s : State).
Arguments Ok {A} a s.
Arguments Failed {A} e s.

Definition M (A : Type) : Type := State -> Outcome A.

Definition ret {A} (a : A) : M A := fun s => Ok a s.

Definition bind {A B} (m : M A) (k : A -> M B) : M B :=
  fun s => match m s with
           | Ok a s' => k a s'
           | Failed e s' => Failed e s'
           end.

Definition raise {A} (e : Failure) : M A := fun s => Failed e s.

Definition gets {A} (f : State -> A) : M A := fun s => Ok (f s) s.

Definition modify (f : State -> State) : M unit := fun s => Ok tt (f s).

Notation "x <- m ;; k" := (bind m (fun x => k))
  (at level 100, m at next level, right associativity, only parsing).

Definition final_state {A} (o : Outcome A) : State :=
  match o with Ok _ s | Failed _ s => s end.

(** ** The lock, the cache and the helpers of the anonymous namespace *)

(** A [MutexLock] on [g_firestores_lock]: the lock is taken for the rest of
    the enclosing scope.  The mutex is a recursive one (the destructor runs
    [DeleteInternal] while [GetInstance] holds it), so taking it only counts.
    An exception leaving the scope unwinds through the guard; a fatal
    failure stops where it is. *)
Definition acquire (s : State) : State :=
  emit EvLock (set_lock_depth (S (lock_depth s)) s).

Definition release (s : State) : State :=
  emit EvUnlock (set_lock_depth (pred (lock_depth s)) s).

Definition MutexLock {A} (scope : M A) : M A :=
  fun s =>
    match scope (acquire s) with
    | Ok a s' => Ok a (release s')
    | Failed e s' => if is_fatal e then Failed e s' else Failed e (release s')
    end.

(** [FirestoreCache()]: ensures that the cache is initialized. *)
Definition FirestoreCache : M (gmap N N) :=
  fun s =>
    match g_firestores s with
    | None => Ok ∅ (emit EvCacheAlloc (set_g_firestores (Some ∅) s))
    | Some cache => Ok cache s
    end.

(** Writing through [InitResult* init_result_out]: [None] is a null pointer,
    [Some v] a pointer to a cell that holds [v]. *)
Definition write_out (init_result_out : option InitResult) (v : InitResult)
  : option InitResult :=
  match init_result_out with
  | Some _ => Some v
  | None => None
  end.

Definition FindFirestoreInCache (app : N) (init_result_out : option InitResult)
  : M (N * option InitResult) :=
  cache <- FirestoreCache ;;
  match cache !! app with
  | Some found => ret (found, write_out init_result_out kInitResultSuccess)
  | None => ret (nullptr, init_result_out)
  end.

Definition CheckInitialized (firestore : FirestoreInternal) : InitResult :=
  if negb (fi_initialized firestore) then kInitResultFailedMissingDependency
  else kInitResultSuccess.

Definition ValidateApp (app : N) : M unit :=
  if (app =? nullptr)%N then
    raise (InvalidArgument
      "firebase::App instance cannot be null. Use firebase::App::GetInstance() without arguments if you'd like to use the default instance.")
  else ret tt.

(** ** Objects *)

(** [*this]: the object a member function is called on. *)
Definition deref (this : N) : M FirestoreObj :=
  fun s =>
    match heap s !! this with
    | Some obj => Ok obj s
    | None => Failed InvalidObject s
    end.

(** [Firestore::app()], both overloads. *)
Definition app (this : N) : M N :=
  obj <- deref this ;;
  match internal_ obj with
  | None => ret nullptr
  | Some i => ret (fi_app i)
  end.

(** A member call that changes the [FirestoreInternal] behind [internal_]. *)
Definition update_internal (this : N) (f : FirestoreInternal -> FirestoreInternal)
  : M unit :=
  obj <- deref this ;;
  match internal_ obj with
  | None => raise InvalidObject
  | Some i =>
      modify (fun s => set_heap (<[this := mkFirestore (Some (f i))]> (heap s)) s)
  end.

Definition set_firestore_public (p : N) (i : FirestoreInternal) : FirestoreInternal :=
  mkInternal (fi_app i) (fi_initialized i) p (fi_listeners i) (fi_cleanup i)
             (fi_settings i).

Definition clear_listeners (i : FirestoreInternal) : FirestoreInternal :=
  mkInternal (fi_app i) (fi_initialized i) (fi_firestore_public i) []
             (fi_cleanup i) (fi_settings i).

Definition cleanup_all (i : FirestoreInternal) : FirestoreInternal :=
  mkInternal (fi_app i) (fi_initialized i) (fi_firestore_public i)
             (fi_listeners i) [] (fi_settings i).

Definition with_settings (st : Settings) (i : FirestoreInternal) : FirestoreInternal :=
  mkInternal (fi_app i) (fi_initialized i) (fi_firestore_public i)
             (fi_listeners i) (fi_cleanup i) st.

(** Modelled from the spec: [CleanupNotifier] (app/src/cleanup_notifier.h) is
    not part of the sources.  The owner's collaborator "exposes
    RegisterObject(instance, onOwnerDestroyed) and UnregisterObject(instance)";
    [FindByOwner] yields the notifier of an owner, or null when it has none. *)
Definition FindByOwner (owner : N) : M (option (list N)) :=
  gets (fun s => notifiers s !! owner).

Definition RegisterObject (owner this : N) : M unit :=
  modify (fun s =>
    emit (EvRegisterObject owner this)
      (set_notifiers (alter (fun objs => (objs ++ [this])%list) owner (notifiers s)) s)).

Definition UnregisterObject (owner this : N) : M unit :=
  modify (fun s =>
    emit (EvUnregisterObject owner this)
      (set_notifiers
         (alter (filter (fun o => o ≠ this)) owner (notifiers s)) s)).

(** [assert(app_notifier)]. *)
Definition assert_notifier (app_notifier : option (list N)) : M unit :=
  match app_notifier with
  | Some _ => ret tt
  | None => raise AssertFailed
  end.

(** [Firestore::SetClientLanguage]. *)
Definition SetClientLanguage (language_token : string) : M unit :=
  modify (fun s =>
    set_client_language (language_token ++ " " ++ GetPlatform (platform s)) s).

(** [internal_->ClearListeners()] and [internal_->cleanup().CleanupAll()]. *)
Definition ClearListeners (this : N) : M unit :=
  _ <- update_internal this clear_listeners ;;
  modify (emit (EvClearListeners this)).

Definition CleanupAll (this : N) : M unit :=
  _ <- update_internal this cleanup_all ;;
  modify (emit (EvCleanupAll this)).

(** [delete internal_; internal_ = nullptr;] *)
Definition release_internal (this : N) : M unit :=
  _ <- deref this ;;
  modify (fun s =>
    emit (EvDeleteInternal this)
      (set_heap (<[this := mkFirestore None]> (heap s)) s)).

(** [FirestoreCache()->erase(app)]. *)
Definition cache_erase (app : N) : M unit :=
  cache <- FirestoreCache ;;
  modify (fun s =>
    emit (EvCacheErase app) (set_g_firestores (Some (delete app cache)) s)).

(** [FirestoreCache()->emplace(app, firestore)]: [std::map::emplace] leaves
    the map as it is when the key is present. *)
Definition cache_emplace (app firestore : N) : M unit :=
  cache <- FirestoreCache ;;
  modify (fun s =>
    emit (EvCacheEmplace app firestore)
      (set_g_firestores
         (Some (match cache !! app with
                | Some _ => cache
                | None => <[app := firestore]> cache
                end)) s)).

(** [if (g_firestores->empty()) { delete g_firestores; g_firestores = nullptr; }] *)
Definition release_cache_if_empty : M unit :=
  fun s =>
    match g_firestores s with
    | None => Failed InvalidObject s
    | Some cache =>
        if bool_decide (cache = ∅)
        then Ok tt (emit EvCacheFree (set_g_firestores None s))
        else Ok tt s
    end.

(** ** Teardown *)

Definition DeleteInternal (this : N) : M unit :=
  MutexLock (
    obj <- deref this ;;
    match internal_ obj with
    | None => ret tt
    | Some i =>
        my_app <- app this ;;
        (* Only need to unregister if internal_ is initialized. *)
        _ <- (if fi_initialized i then
                app_notifier <- FindByOwner my_app ;;
                _ <- assert_notifier app_notifier ;;
                UnregisterObject my_app this
              else ret tt) ;;
        (* Clear the listeners before triggering cleanup. *)
        _ <- ClearListeners this ;;
        (* Force cleanup to happen first. *)
        _ <- CleanupAll this ;;
        _ <- release_internal this ;;
        (* If a Firestore is explicitly deleted, remove it from our cache. *)
        _ <- cache_erase my_app ;;
        (* If it's the last one, delete the map. *)
        release_cache_if_empty
    end).

(** [delete firestore]: the destructor [~Firestore() { DeleteInternal(); }]
    runs, then the storage of the object is given back. *)
Definition delete_Firestore (this : N) : M unit :=
  _ <- DeleteInternal this ;;
  modify (fun s => emit (EvDelete this) (set_heap (delete this (heap s)) s)).

(** The callback the constructor hands to [RegisterObject]: what the owner's
    notifier runs when the [App] goes away before the [Firestore]. *)
Definition OnAppDestroyed (object : N) : M unit :=
  owner <- app object ;;
  _ <- modify (emit (EvLogWarning object owner)) ;;
  DeleteInternal object.

(** ** Construction *)

(** An address that is not null and holds no [Firestore]. *)
Definition unused_address (s : State) : N := fresh ({[nullptr]} ∪ dom (heap s)).

(** [new Firestore(internal)]: the object is placed at an unused address and
    the constructor body runs. *)
Definition new_Firestore (internal : FirestoreInternal) : M N :=
  this <- gets unused_address ;;
  _ <- modify (fun s =>
         emit (EvNew this)
           (set_heap (<[this := mkFirestore (Some internal)]> (heap s)) s)) ;;
  _ <- update_internal this (set_firestore_public this) ;;
  ci <- gets compiler_info ;;
  _ <- SetClientLanguage ("gl-cpp/" ++ ci) ;;
  if fi_initialized internal then
    owner <- app this ;;
    app_notifier <- FindByOwner owner ;;
    _ <- assert_notifier app_notifier ;;
    _ <- RegisterObject owner this ;;
    ret this
  else ret this.

Definition AddFirestoreToCache (firestore : N) (init_result_out : option InitResult)
  : M (N * option InitResult) :=
  obj <- deref firestore ;;
  match internal_ obj with
  | None => raise InvalidObject
  | Some i =>
      let init_result := CheckInitialized i in
      let out := write_out init_result_out init_result in
      if bool_decide (init_result ≠ kInitResultSuccess) then
        _ <- delete_Firestore firestore ;;
        ret (nullptr, out)
      else
        owner <- app firestore ;;
        _ <- cache_emplace owner firestore ;;
        ret (firestore, out)
  end.

(** [Firestore::GetInstance] with an explicit [App].  [factory] stands for
    [new FirestoreInternal{app}], whose definition is platform code outside
    this file. *)
Definition GetInstance (factory : N -> FirestoreInternal) (app : N)
    (init_result_out : option InitResult) : M (N * option InitResult) :=
  _ <- ValidateApp app ;;
  MutexLock (
    r <- FindFirestoreInCache app init_result_out ;;
    let '(from_cache, out) := r in
    if negb (from_cache =? nullptr)%N then ret (from_cache, out)
    else
      firestore <- new_Firestore (factory app) ;;
      AddFirestoreToCache firestore out).

(** [Firestore::GetInstance] for the default [App]; [default_app] is the pointer that
    [App::GetInstance()] returns. *)
Definition GetInstance_default (factory : N -> FirestoreInternal) (default_app : N)
    (init_result_out : option InitResult) : M (N * option InitResult) :=
  if (default_app =? nullptr)%N then
    raise (InvalidArgument
      "Failed to get firebase::App instance. Please call firebase::App::Create before using Firestore")
  else GetInstance factory default_app init_result_out.

(** [Firestore::CreateFirestore]; a null [internal] is [None]. *)
Definition CreateFirestore (app : N) (internal : option FirestoreInternal)
    (init_result_out : option InitResult) : M (N * option InitResult) :=
  _ <- ValidateApp app ;;
  match internal with
  | None => raise (HardAssertFailed "Provided FirestoreInternal must not be null.")
  | Some i =>
      MutexLock (
        r <- FindFirestoreInCache app init_result_out ;;
        let '(from_cache, out) := r in
        if negb (from_cache =? nullptr)%N
        then raise (HardAssertFailed "Firestore must not be created already")
        else
          firestore <- new_Firestore i ;;
          AddFirestoreToCache firestore out)
  end.

(** ** Public entry points *)

(** A [const char*] argument is [None] when null and otherwise the characters
    it points to; [p[0] == 0] holds when there is none before the
    terminator.  [std::string::c_str()] yields the characters up to the first
    NUL. *)
Definition first_is_nul (p : string) : bool :=
  match p with
  | EmptyString => true
  | String c _ => Ascii.eqb c zero
  end.

Fixpoint c_str (s : string) : string :=
  match s with
  | EmptyString => EmptyString
  | String c rest => if Ascii.eqb c zero then EmptyString else String c (c_str rest)
  end.

(** [if (!internal_) return absent; return present;] on the object [this]. *)
Definition with_internal {A} (this : N) (absent : M A)
    (present : FirestoreInternal -> M A) : M A :=
  obj <- deref this ;;
  match internal_ obj with
  | None => absent
  | Some i => present i
  end.

Definition Collection (this : N) (collection_path : option string)
  : M CollectionReference :=
  match collection_path with
  | None => raise (InvalidArgument "Collection path cannot be null.")
  | Some path =>
      if first_is_nul path
      then raise (InvalidArgument "Collection path cannot be empty.")
      else with_internal this (ret CollectionReference_default)
             (fun _ => ret (CollectionReference_of this path))
  end.

Definition Collection_string (this : N) (collection_path : string)
  : M CollectionReference :=
  Collection this (Some (c_str collection_path)).

Definition Document (this : N) (document_path : option string)
  : M DocumentReference :=
  match document_path with
  | None => raise (InvalidArgument "Document path cannot be null.")
  | Some path =>
      if first_is_nul path
      then raise (InvalidArgument "Document path cannot be empty.")
      else with_internal this (ret DocumentReference_default)
             (fun _ => ret (DocumentReference_of this path))
  end.

Definition Document_string (this : N) (document_path : string)
  : M DocumentReference :=
  Document this (Some (c_str document_path)).

Definition CollectionGroup (this : N) (collection_id : option string) : M Query :=
  match collection_id with
  | None => raise (InvalidArgument "Collection ID cannot be null.")
  | Some id =>
      if first_is_nul id
      then raise (InvalidArgument "Collection ID cannot be empty.")
      else with_internal this (ret Query_default)
             (fun _ => ret (Query_group this id))
  end.

Definition CollectionGroup_string (this : N) (collection_id : string) : M Query :=
  with_internal this (ret Query_default)
    (fun _ => ret (Query_group this (c_str collection_id))).

Definition settings (this : N) : M Settings :=
  with_internal this (ret Settings_default) (fun i => ret (fi_settings i)).

Definition set_settings (this : N) (st : Settings) : M unit :=
  with_internal this (ret tt) (fun _ => update_internal this (with_settings st)).

Definition batch (this : N) : M WriteBatch :=
  with_internal this (ret WriteBatch_default) (fun _ => ret (WriteBatch_of this)).

(** A call forwarded to the backend: [return internal_->Call(...)]. *)
Definition backend (this : N) (call : BackendCall) : M Future :=
  _ <- modify (emit (EvBackend this call)) ;;
  ret (BackendFuture this call).

(** A [std::function] argument is [None] when empty. *)
Definition RunTransaction (this : N) (update : option N) : M Future :=
  match update with
  | None =>
      raise (InvalidArgument
        "Transaction update callback cannot be an empty function.")
  | Some u =>
      with_internal this (ret FailedFuture)
        (fun _ => backend this (CallRunTransaction u))
  end.

Definition DisableNetwork (this : N) : M Future :=
  with_internal this (ret FailedFuture) (fun _ => backend this CallDisableNetwork).

Definition EnableNetwork (this : N) : M Future :=
  with_internal this (ret FailedFuture) (fun _ => backend this CallEnableNetwork).

Definition Terminate (this : N) : M Future :=
  with_internal this (ret FailedFuture)
    (fun _ =>
       owner <- app this ;;
       _ <- cache_erase owner ;;
       backend this CallTerminate).

Definition WaitForPendingWrites (this : N) : M Future :=
  with_internal this (ret FailedFuture)
    (fun _ => backend this CallWaitForPendingWrites).

Definition ClearPersistence (this : N) : M Future :=
  with_internal this (ret FailedFuture)
    (fun _ => backend this CallClearPersistence).

Definition add_listener (callback : N) (i : FirestoreInternal) : FirestoreInternal :=
  mkInternal (fi_app i) (fi_initialized i) (fi_firestore_public i)
             (fi_listeners i ++ [callback])%list (fi_cleanup i) (fi_settings i).

Definition AddSnapshotsInSyncListener (this : N) (callback : option N)
  : M ListenerRegistration :=
  match callback with
  | None =>
      raise (InvalidArgument
        "Snapshots in sync listener callback cannot be an empty function.")
  | Some cb =>
      with_internal this (ret ListenerRegistration_default)
        (fun _ =>
           _ <- update_internal this (add_listener cb) ;;
           ret (ListenerRegistration_of this cb))
  end.

Definition LoadBundle (this : N) (bundle : string) : M Future :=
  with_internal this (ret FailedFuture)
    (fun _ => backend this (CallLoadBundle bundle)).

Definition LoadBundle_progress (this : N) (bundle : string)
    (progress_callback : option N) : M Future :=
  match progress_callback with
  | None => raise (InvalidArgument "Progress callback cannot be an empty function.")
  | Some cb =>
      with_internal this (ret FailedFuture)
        (fun _ => backend this (CallLoadBundleProgress bundle cb))
  end.

Definition NamedQuery (this : N) (query_name : string) : M Future :=
  with_internal this (ret FailedFuture)
    (fun _ => backend this (CallNamedQuery query_name)).

(** ** The operations seen together *)

(** The future-returning operations with their arguments. *)
Inductive AsyncOperation :=
| OpRunTransaction (update : option N)
| OpDisableNetwork
| OpEnableNetwork
| OpWaitForPendingWrites
| OpClearPersistence
| OpLoadBundle (bundle : string)
| OpLoadBundle_progress (bundle : string) (progress_callback : option N)
| OpNamedQuery (query_name : string)
| OpTerminate.

Definition invoke (this : N) (op : AsyncOperation) : M Future :=
  match op with
  | OpRunTransaction update => RunTransaction this update
  | OpDisableNetwork => DisableNetwork this
  | OpEnableNetwork => EnableNetwork this
  | OpWaitForPendingWrites => WaitForPendingWrites this
  | OpClearPersistence => ClearPersistence this
  | OpLoadBundle bundle => LoadBundle this bundle
  | OpLoadBundle_progress bundle cb => LoadBundle_progress this bundle cb
  | OpNamedQuery query_name => NamedQuery this query_name
  | OpTerminate => Terminate this
  end.

(** The callback an operation takes, when it takes one, is not empty. *)
Definition callback_present (op : AsyncOperation) : bool :=
  match op with
  | OpRunTransaction None | OpLoadBundle_progress _ None => false
  | _ => true
  end.

(** A path or id argument that passes the two checks of the entry points. *)
Definition path_present (p : option string) : bool :=
  match p with
  | None => false
  | Some path => negb (first_is_nul path)
  end.

(** The object exists and its [internal_] has been released. *)
Definition released (s : State) (this : N) : Prop :=
  heap s !! this = Some (mkFirestore None).

(** The object exists and owns the internal [i]. *)
Definition owns (s : State) (this : N) (i : FirestoreInternal) : Prop :=
  heap s !! this = Some (mkFirestore (Some i)).

(** [cache->find(app)] on the global map as it is, without creating it. *)
Definition registered (s : State) (app : N) : option N :=
  match g_firestores s with
  | None => None
  | Some cache => cache !! app
  end.

(** What a call appended to the trace. *)
Definition events_of {A} (call : M A) (s : State) : list Event :=
  drop (List.length (trace s)) (trace (final_state (call s))).

(** The entry points that take a required argument, called with it missing. *)
Inductive MissingArgument :=
| NullCollection | EmptyCollection (rest : string)
| EmptyCollection_string (rest : string)
| NullDocument | EmptyDocument (rest : string)
| EmptyDocument_string (rest : string)
| NullCollectionGroup | EmptyCollectionGroup (rest : string)
| EmptyRunTransaction
| EmptyAddSnapshotsInSyncListener
| EmptyLoadBundle_progress (bundle : string)
| NullGetInstance (factory : N -> FirestoreInternal) (out : option InitResult)
| NullGetInstance_default (factory : N -> FirestoreInternal) (out : option InitResult)
| NullCreateFirestore (internal : option FirestoreInternal) (out : option InitResult).

(** An empty C string, or a [std::string] that is empty up to its first NUL. *)
Definition nul_then (rest : string) : string := String zero rest.

Definition failure_of {A} (o : Outcome A) : option Failure :=
  match o with
  | Ok _ _ => None
  | Failed e _ => Some e
  end.

Definition call_without (this : N) (m : MissingArgument) (s : State)
  : option Failure * State :=
  let pack {A} (o : Outcome A) := (failure_of o, final_state o) in
  match m with
  | NullCollection => pack (Collection this None s)
  | EmptyCollection rest => pack (Collection this (Some (nul_then rest)) s)
  | EmptyCollection_string rest => pack (Collection_string this (nul_then rest) s)
  | NullDocument => pack (Document this None s)
  | EmptyDocument rest => pack (Document this (Some (nul_then rest)) s)
  | EmptyDocument_string rest => pack (Document_string this (nul_then rest) s)
  | NullCollectionGroup => pack (CollectionGroup this None s)
  | EmptyCollectionGroup rest => pack (CollectionGroup this (Some (nul_then rest)) s)
  | EmptyRunTransaction => pack (RunTransaction this None s)
  | EmptyAddSnapshotsInSyncListener => pack (AddSnapshotsInSyncListener this None s)
  | EmptyLoadBundle_progress bundle => pack (LoadBundle_progress this bundle None s)
  | NullGetInstance factory out => pack (GetInstance factory nullptr out s)
  | NullGetInstance_default factory out =>
      pack (GetInstance_default factory nullptr out s)
  | NullCreateFirestore internal out => pack (CreateFirestore nullptr internal out s)
  end.

(** ** The order of the teardown steps in a trace *)

Definition is_unregister (e : Event) : bool :=
  match e with EvUnregisterObject _ _ => true | _ => false end.

Definition is_clear_listeners (e : Event) : bool :=
  match e with EvClearListeners _ => true | _ => false end.

(** Releasing what the backend holds: the queued cleanup, the deletion of
    [internal_], or the backend's own [Terminate]. *)
Definition is_backend_release (e : Event) : bool :=
  match e with
  | EvCleanupAll _ | EvDeleteInternal _ | EvBackend _ CallTerminate => true
  | _ => false
  end.

Definition is_cache_erase (e : Event) : bool :=
  match e with EvCacheErase _ => true | _ => false end.

(** No [earlier] event comes after a [later] event. *)
Fixpoint never_after (earlier later : Event -> bool) (tr : list Event) : bool :=
  match tr with
  | [] => true
  | e :: rest =>
      (if later e then negb (existsb earlier rest) else true)
      && never_after earlier later rest
  end.

(** Every [later] event has an [earlier] event before it; [seen] tells
    whether one has passed already. *)
Fixpoint preceded (earlier later : Event -> bool) (seen : bool) (tr : list Event)
  : bool :=
  match tr with
  | [] => true
  | e :: rest =>
      (if later e then seen else true)
      && preceded earlier later (seen || earlier e) rest
  end.

(** The fixed order: deregistration before listener clearing, listener
    clearing before any release of backend resources, removal from the
    registry after such a release. *)
Definition teardown_order (tr : list Event) : bool :=
  never_after is_unregister is_clear_listeners tr
  && preceded is_clear_listeners is_backend_release false tr
  && never_after is_clear_listeners is_backend_release tr
  && preceded is_backend_release is_cache_erase false tr.

(** The steps of a teardown, without the bookkeeping of lock and map. *)
Definition is_step (e : Event) : bool :=
  is_unregister e || is_clear_listeners e || is_backend_release e
  || is_cache_erase e.

Definition steps (tr : list Event) : list Event := List.filter is_step tr.

(** What [erase] and the check for emptiness leave of the global map. *)
Definition after_erase (owner : N) (cache : option (gmap N N)) : option (gmap N N) :=
  match cache with
  | None => None
  | Some m => if bool_decide (delete owner m = ∅) then None else Some (delete owner m)
  end.

Definition erase_events (owner : N) (cache : option (gmap N N)) : list Event :=
  match cache with
  | None => [EvCacheAlloc; EvCacheErase owner; EvCacheFree]
  | Some m =>
      if bool_decide (delete owner m = ∅)
      then [EvCacheErase owner; EvCacheFree]
      else [EvCacheErase owner]
  end.

Definition unregister_events (this : N) (i : FirestoreInternal) : list Event :=
  if fi_initialized i then [EvUnregisterObject (fi_app i) this] else [].

(** The events of a [DeleteInternal] that finds [internal_] set. *)
Definition DeleteInternal_events (this : N) (i : FirestoreInternal)
    (cache : option (gmap N N)) : list Event :=
  ([EvLock] ++ unregister_events this i
   ++ [EvClearListeners this; EvCleanupAll this; EvDeleteInternal this]
   ++ erase_events (fi_app i) cache ++ [EvUnlock])%list.

(** The steps of the claimed order, for the instance [this] of owner
    [fi_app i]. *)
Definition ordered_steps (this : N) (i : FirestoreInternal) : list Event :=
  (unregister_events this i
   ++ [EvClearListeners this; EvCleanupAll this; EvDeleteInternal this;
       EvCacheErase (fi_app i)])%list.

(** What [emplace] leaves of the map. *)
Definition after_emplace (owner this : N) (cache : option (gmap N N)) : gmap N N :=
  let m := default ∅ cache in
  match m !! owner with
  | Some _ => m
  | None => <[owner := this]> m
  end.

Definition register_events (this : N) (i : FirestoreInternal) : list Event :=
  if fi_initialized i then [EvRegisterObject (fi_app i) this] else [].

Definition alloc_events (cache : option (gmap N N)) : list Event :=
  match cache with
  | None => [EvCacheAlloc]
  | Some _ => []
  end.

(** ** Invariants of the registry *)

(** Every entry designates, under the key of its owner, a live object whose
    internal is initialized. *)
Definition registry_sound (s : State) : Prop :=
  forall app this : N, registered s app = Some this ->
    this ≠ nullptr ∧
    ∃ i, owns s this i ∧ fi_initialized i = true ∧ fi_app i = app.

(** The map exists only while it has entries. *)
Definition storage_released_when_empty (s : State) : Prop :=
  g_firestores s ≠ Some ∅.

(** ** A run of the code *)

Definition app_A : N := 100%N.

(** A process in which [app_A] has a cleanup notifier and no [Firestore]
    has been requested yet. *)
Definition boot : State :=
  set_notifiers {[app_A := []]} (initial_state PlatformLinux "GCC-9").

Definition linked (app : N) : FirestoreInternal :=
  mkInternal app true nullptr [] [] Settings_default.

Definition unlinked (app : N) : FirestoreInternal :=
  mkInternal app false nullptr [] [] Settings_default.

(** [Firestore::GetInstance(app_A)] succeeded. *)
Definition after_GetInstance : Outcome (N * option InitResult) :=
  GetInstance linked app_A (Some kInitResultFailedMissingDependency) boot.

Definition live : State := final_state after_GetInstance.

Definition the_instance : N :=
  match after_GetInstance with
  | Ok (this, _) _ => this
  | Failed _ _ => nullptr
  end.

(** Then [app_A] was destroyed first: the owner callback has run. *)
Definition torn_down : State := final_state (OnAppDestroyed the_instance live).

(** ** Sequences of lifecycle calls *)

(** The calls that create, terminate and destroy instances. *)
Inductive Lifecycle :=
| DoGetInstance (factory : N -> FirestoreInternal) (app : N)
    (init_result_out : option InitResult)
| DoCreateFirestore (app : N) (internal : option FirestoreInternal)
    (init_result_out : option InitResult)
| DoTerminate (this : N)
| DoOnAppDestroyed (this : N)
| DoDelete (this : N).

(** The state a call returned in, when it returned. *)
Definition returned {A} (o : Outcome A) : option State :=
  match o with
  | Ok _ s => Some s
  | Failed _ _ => None
  end.

Definition perform (call : Lifecycle) (s : State) : option State :=
  match call with
  | DoGetInstance factory app out => returned (GetInstance factory app out s)
  | DoCreateFirestore app internal out => returned (CreateFirestore app internal out s)
  | DoTerminate this => returned (Terminate this s)
  | DoOnAppDestroyed this => returned (OnAppDestroyed this s)
  | DoDelete this => returned (delete_Firestore this s)
  end.

Fixpoint perform_all (calls : list Lifecycle) (s : State) : option State :=
  match calls with
  | [] => Some s
  | call :: rest =>
      match perform call s with
      | Some s' => perform_all rest s'
      | None => None
      end
  end.

Definition is_Terminate (call : Lifecycle) : bool :=
  match call with
  | DoTerminate _ => true
  | _ => false
  end.

(** The token the constructor passes on: language, compiler and platform. *)
Definition announced (s : State) : string :=
  ("gl-cpp/" ++ compiler_info s) ++ " " ++ GetPlatform (platform s).

End Firestore.

Module Thread.

(** ** The thread handle *)

(** Modelled from the spec: [firebase::Thread] (app/src/thread.h) is not part
    of the sources, only its tests are.  The states of a handle and the
    transitions of [Join], [Detach], move and destruction follow the
    contract of the ThreadHandle component; how a refused [Join] or [Detach]
    reaches the caller follows the tests, which catch a [std::system_error]
    and compare its code with [std::errc::invalid_argument]. *)
Inductive Handle :=
| Empty
| RunningJoinable (id : nat)
| RunningDetached (id : nat)
| Retired.

(** Codes of [std::errc] a [std::system_error] can carry. *)
Inductive errc :=
| invalid_argument
| no_such_process
| resource_deadlock_would_occur.

Global Instance errc_eq_dec : EqDecision errc.
Proof. solve_decision. Defined.
Global Instance Handle_eq_dec : EqDecision Handle.
Proof. solve_decision. Defined.

Section World.

(** What the callables share with the code that starts them. *)
Context {S : Type}.

(** The running program: the id of the execution context that is executing,
    the ids handed out to started units, the units that have not run to
    completion yet (each callable is given the id of its own context), the
    shared memory, and the [Thread] objects of the enclosing scope in the
    order of their declaration. *)
Record World := mkWorld {
  current : nat;
  issued : list nat;
  pending : list (nat * (nat -> S -> S));
  memory : S;
  vars : list Handle
}.

(** How a statement ends: it returns, it throws a [std::system_error] that
    the caller may catch, or the process is terminated. *)
Inductive Result (A : Type) : Type :=
| Returned (a : A) (w : World)
| Thrown (code : errc) (w : World)
| Terminated.
Arguments Returned {A} a w.
Arguments Thrown {A} code w.
Arguments Terminated {A}.

Definition T (A : Type) : Type := World -> Result A.

Definition unit_ {A} (a : A) : T A := fun w => Returned a w.

Definition and_then {A B} (m : T A) (k : A -> T B) : T B :=
  fun w => match m w with
           | Returned a w' => k a w'
           | Thrown c w' => Thrown c w'
           | Terminated => Terminated
           end.

Definition set_vars (vs : list Handle) (w : World) : World :=
  mkWorld (current w) (issued w) (pending w) (memory w) vs.

Definition set_memory (m : S) (w : World) : World :=
  mkWorld (current w) (issued w) (pending w) m (vars w).

(** Modelled from the spec: [Thread::Joinable], a "pure query, true only in
    Running-Joinable". *)
Definition Joinable (h : Handle) : bool :=
  match h with
  | RunningJoinable _ => true
  | _ => false
  end.

(** Modelled from the spec: the id of a unit about to start; "ids across
    distinct concurrent contexts differ", so it is one that no context of
    the world carries. *)
Definition fresh_id (w : World) : nat :=
  Datatypes.S (max_list (current w :: issued w)).

(** [firebase::Thread thread;] declares an Empty handle and yields its
    position among the objects of the scope. *)
Definition declare (h : Handle) : T nat :=
  fun w => Returned (List.length (vars w)) (set_vars (vars w ++ [h]) w).

Definition Thread_default : T nat := declare Empty.

(** Modelled from the spec: the constructor of [firebase::Thread] that
    takes a callable.  "Begins concurrent execution of callable; resulting
    handle is Running-Joinable"; the unit runs in a context of its own. *)
Definition Thread_start (callable : nat -> S -> S) : T nat :=
  fun w =>
    let id := fresh_id w in
    declare (RunningJoinable id)
      (mkWorld (current w) (id :: issued w) (pending w ++ [(id, callable)])
               (memory w) (vars w)).

(** The work of unit [id], when it has not completed yet, runs to its end in
    the context [id]. *)
Fixpoint complete (id : nat) (units : list (nat * (nat -> S -> S))) (m : S)
  : list (nat * (nat -> S -> S)) * S :=
  match units with
  | [] => ([], m)
  | (id', callable) :: rest =>
      if Nat.eqb id' id then
        complete id rest (callable id' m)
      else
        let '(rest', m') := complete id rest m in ((id', callable) :: rest', m')
  end.

(** The object at position [v].  A position that names no object of the
    scope does not occur in a program that compiles; the model stops there. *)
Definition read (v : nat) : T Handle :=
  fun w => match vars w !! v with
           | Some h => Returned h w
           | None => Terminated
           end.

Definition write (v : nat) (h : Handle) : T unit :=
  fun w => Returned tt (set_vars (<[v := h]> (vars w)) w).

(** Modelled from the spec: [Thread::Join].  It waits until the work
    completes and "transitions Running-Joinable to Retired"; it is refused
    "when called on Empty, on an already-Retired handle, or on a Detached
    handle".  The refusal is the [std::system_error] the tests catch. *)
Definition Join (v : nat) : T unit :=
  and_then (read v) (fun h =>
    match h with
    | RunningJoinable id =>
        fun w =>
          let '(units, m) := complete id (pending w) (memory w) in
          write v Retired
            (mkWorld (current w) (issued w) units m (vars w))
    | _ => fun w => Thrown invalid_argument w
    end).

(** Modelled from the spec: [Thread::Detach].  "The work continues
    independently"; refused "under the same conditions as Join, plus being
    called on an already-detached handle". *)
Definition Detach (v : nat) : T unit :=
  and_then (read v) (fun h =>
    match h with
    | RunningJoinable id => write v (RunningDetached id)
    | _ => fun w => Thrown invalid_argument w
    end).

Definition IsJoinable (v : nat) : T bool :=
  and_then (read v) (fun h => unit_ (Joinable h)).

(** Modelled from the spec: the move constructor of [firebase::Thread].
    It "transfers ownership of the underlying unit of execution; the
    moved-from handle becomes Empty". *)
Definition move_construct (source : nat) : T nat :=
  and_then (read source) (fun h =>
  and_then (write source Empty) (fun _ =>
  declare h)).

(** Modelled from the spec: move assignment of [firebase::Thread].
    "Move-assigning into a handle that is currently Running-Joinable is a
    fatal contract violation"; otherwise ownership moves as above. *)
Definition move_assign (target source : nat) : T unit :=
  and_then (read target) (fun ht =>
    if Joinable ht then fun _ => Terminated
    else
      and_then (read source) (fun hs =>
      and_then (write source Empty) (fun _ =>
      write target hs))).

(** Modelled from the spec: the destructor of [firebase::Thread], as a
    test that the object may go.  "Destruction of a handle that is still
    Running-Joinable is likewise a fatal contract violation". *)
Definition destroy (h : Handle) : bool := negb (Joinable h).

(** Leaving the scope destroys its objects, last declared first, whether the
    block returns or an exception passes through it. *)
Definition leave_scope {A} (r : Result A) : Result A :=
  match r with
  | Returned a w =>
      if forallb destroy (rev (vars w)) then Returned a (set_vars [] w)
      else Terminated
  | Thrown c w =>
      if forallb destroy (rev (vars w)) then Thrown c (set_vars [] w)
      else Terminated
  | Terminated => Terminated
  end.

Definition block {A} (body : T A) : T A := fun w => leave_scope (body w).

(** Modelled from the spec: [Thread::CurrentId] and
    [Thread::IsCurrentThread], an "identity query with value semantics". *)
Definition CurrentId : T nat := fun w => Returned (current w) w.

Definition IsCurrentThread (id : nat) : T bool :=
  fun w => Returned (Nat.eqb id (current w)) w.

(** ** The tests of the repository, as programs over the model *)

Notation "x <- m ;; k" := (and_then m (fun x => k))
  (at level 100, m at next level, right associativity, only parsing).

(** [EXPECT_THROW_ERROR_CODE(statement, error_code)]: the statement must
    throw a [std::system_error] whose code is [error_code]; the macro catches
    it, compares, rethrows, and [EXPECT_THROW] catches it again. *)
Definition EXPECT_THROW_ERROR_CODE {A} (statement : Result A) (error_code : errc)
  : bool :=
  match statement with
  | Thrown code _ => bool_decide (error_code = code)
  | _ => false
  end.

(** [ASSERT_DEATH(statement, "")]: the statement must end the process. *)
Definition ASSERT_DEATH {A} (statement : Result A) : bool :=
  match statement with
  | Terminated => true
  | _ => false
  end.

(** A test body passes when it returns with all its assertions met. *)
Definition passes (r : Result bool) : bool :=
  match r with
  | Returned ok _ => ok
  | _ => false
  end.

(** The callable [[] {}]. *)
Definition nothing : nat -> S -> S := fun _ m => m.

Definition ThreadIsNotJoinableAfterJoin (w : World) : bool :=
  passes (block (
    thread <- Thread_start nothing ;;
    before <- IsJoinable thread ;;
    if negb (bool_decide (before = true)) then unit_ false else
    _ <- Join thread ;;
    after <- IsJoinable thread ;;
    unit_ (bool_decide (after = false))) w).

Definition ThreadIsNotJoinableAfterDetach (w : World) : bool :=
  passes (block (
    thread <- Thread_start nothing ;;
    before <- IsJoinable thread ;;
    if negb (bool_decide (before = true)) then unit_ false else
    _ <- Detach thread ;;
    after <- IsJoinable thread ;;
    unit_ (bool_decide (after = false))) w).

Definition ThreadShouldNotBeJoinableAfterBeingMoveAssignedOutOf (w : World) : bool :=
  passes (block (
    source <- Thread_start nothing ;;
    target <- Thread_default ;;
    before <- IsJoinable source ;;
    if negb (bool_decide (before = true)) then unit_ false else
    _ <- move_assign target source ;;
    s_after <- IsJoinable source ;;
    if negb (bool_decide (s_after = false)) then unit_ false else
    t_after <- IsJoinable target ;;
    if negb (bool_decide (t_after = true)) then unit_ false else
    _ <- Join target ;;
    unit_ true) w).

Definition ThreadShouldNotBeJoinableAfterBeingMoveFrom (w : World) : bool :=
  passes (block (
    source <- Thread_start nothing ;;
    before <- IsJoinable source ;;
    if negb (bool_decide (before = true)) then unit_ false else
    target <- move_construct source ;;
    s_after <- IsJoinable source ;;
    if negb (bool_decide (s_after = false)) then unit_ false else
    t_after <- IsJoinable target ;;
    if negb (bool_decide (t_after = true)) then unit_ false else
    _ <- Join target ;;
    unit_ true) w).

Definition MovingIntoRunningThreadShouldAbort (w : World) : bool :=
  ASSERT_DEATH (block (
    thread <- Thread_start nothing ;;
    temporary <- Thread_default ;;
    move_assign thread temporary) w).

Definition JoinEmptyThreadShouldAbort (w : World) : bool :=
  EXPECT_THROW_ERROR_CODE (block (
    thread <- Thread_default ;;
    Join thread) w) invalid_argument.

Definition JoinThreadMultipleTimesShouldAbort (w : World) : bool :=
  EXPECT_THROW_ERROR_CODE (block (
    thread <- Thread_start nothing ;;
    _ <- Join thread ;;
    Join thread) w) invalid_argument.

Definition JoinDetachedThreadShouldAbort (w : World) : bool :=
  EXPECT_THROW_ERROR_CODE (block (
    thread <- Thread_start nothing ;;
    _ <- Detach thread ;;
    Join thread) w) invalid_argument.

Definition DetachJoinedThreadShouldAbort (w : World) : bool :=
  EXPECT_THROW_ERROR_CODE (block (
    thread <- Thread_start nothing ;;
    _ <- Join thread ;;
    Detach thread) w) invalid_argument.

Definition DetachEmptyThreadShouldAbort (w : World) : bool :=
  EXPECT_THROW_ERROR_CODE (block (
    thread <- Thread_default ;;
    Detach thread) w) invalid_argument.

Definition DetachThreadMultipleTimesShouldAbort (w : World) : bool :=
  EXPECT_THROW_ERROR_CODE (block (
    thread <- Thread_start nothing ;;
    _ <- Detach thread ;;
    Detach thread) w) invalid_argument.

Definition WhenJoinableThreadIsDestructedShouldAbort (w : World) : bool :=
  ASSERT_DEATH (block (
    thread <- Thread_start nothing ;;
    unit_ tt) w).

Definition ThreadIsEqualToItself (w : World) : bool :=
  passes (block (
    thread_id <- CurrentId ;;
    same <- IsCurrentThread thread_id ;;
    unit_ (bool_decide (same = true))) w).

(** The policy in the words of the specification, for comparison with the
    tests: a refused [Join] "must terminate the process". *)
Definition Join_fail_fast (v : nat) : T unit :=
  h <- read v ;;
  if Joinable h then Join v else fun _ => Terminated.

End World.

Arguments World S : clear implicits.
Arguments mkWorld {S} current issued pending memory vars.
Arguments Returned {S A} a w.
Arguments Thrown {S A} code w.
Arguments Terminated {S A}.
Arguments Result S A : clear implicits.
Arguments T S A : clear implicits.

(** The two tests whose callable writes to a [ThreadSafe] value. *)

Definition ThreadExecutesAndJoinWaitsForItToFinish (w : World bool) : bool :=
  passes (block (and_then (Thread_start (fun _ _ => true)) (fun thread =>
    and_then (Join thread) (fun _ =>
    fun w' => Returned (bool_decide (memory w' = true)) w')))
    (set_memory false w)).

Definition ThreadIsNotEqualToDifferentThread (w : World nat) : bool :=
  passes (block (and_then (Thread_start (fun self _ => self)) (fun thread =>
    and_then (Join thread) (fun _ =>
    and_then (fun w' => IsCurrentThread (memory w') w') (fun other =>
    unit_ (bool_decide (other = false))))))
    (set_memory (current w) w)).

(** A test process at its start: one context, nothing started. *)
Definition main_thread {S} (m : S) : World S := mkWorld 7 [] [] m [].

End Thread.


(** * Facts about the Firestore lifecycle *)

Module FirestoreFacts.

Import Firestore.

(** ** Running the small steps *)

Lemma app_nonnull (a : N) : a ≠ nullptr → (a =? nullptr)%N = false.
Proof. intros H. by apply N.eqb_neq. Qed.

Lemma with_internal_released {A} s this (absent : M A) present :
  released s this → with_internal this absent present s = absent s.
Proof.
  unfold released, with_internal, bind, deref. intros ->. reflexivity.
Qed.

Lemma with_internal_owns {A} s this i (absent : M A) present :
  owns s this i → with_internal this absent present s = present i s.
Proof.
  unfold owns, with_internal, bind, deref. intros ->. reflexivity.
Qed.

Lemma app_released s this : released s this → app this s = Ok nullptr s.
Proof. unfold released, app, bind, deref. intros ->. reflexivity. Qed.

Lemma app_owns s this i : owns s this i → app this s = Ok (fi_app i) s.
Proof. unfold owns, app, bind, deref. intros ->. reflexivity. Qed.

Lemma drop_own_length {A} (l k : list A) : drop (List.length l) (l ++ k) = k.
Proof. induction l; simpl; auto. Qed.

(** ** Operations on a released instance *)

Lemma invoke_released s this op :
  released s this → callback_present op = true →
  invoke this op s = Ok FailedFuture s.
Proof.
  intros Hrel Hcb.
  destruct op as [[u|]| | | | | |b [cb|]| |]; simpl in *; try discriminate;
    unfold RunTransaction, DisableNetwork, EnableNetwork, WaitForPendingWrites,
      ClearPersistence, LoadBundle, LoadBundle_progress, NamedQuery, Terminate;
    by rewrite with_internal_released.
Qed.

Lemma DeleteInternal_released s this :
  released s this →
  DeleteInternal this s = Ok tt (release (acquire s)).
Proof.
  unfold released. intros Hrel.
  unfold DeleteInternal, MutexLock, bind, deref. cbn. rewrite Hrel. reflexivity.
Qed.

Lemma events_of_unchanged {A} (call : M A) (a : A) s :
  call s = Ok a s → events_of call s = [].
Proof. unfold events_of. intros ->. simpl. apply drop_all. Qed.

(** C3 (amended): an asynchronous operation invoked on an instance whose
    internal state has been released, with a callback that is not empty
    where it takes one, returns the failed future at once; the state is the
    one before the call and no event, so no backend call, was recorded. *)
Theorem released_operation_fails_at_once s this op :
  released s this → callback_present op = true →
  invoke this op s = Ok FailedFuture s ∧ events_of (invoke this op) s = [].
Proof.
  intros Hrel Hcb. pose proof (invoke_released s this op Hrel Hcb) as Hrun.
  split; [exact Hrun | by apply (events_of_unchanged _ FailedFuture)].
Qed.

Lemma released_operation_fails_at_once_witness :
  released torn_down the_instance ∧
  invoke the_instance (OpRunTransaction (Some 5%N)) torn_down
    = Ok FailedFuture torn_down ∧
  events_of (invoke the_instance (OpRunTransaction (Some 5%N))) torn_down = [].
Proof.
  assert (Hrel : released torn_down the_instance) by (vm_compute; reflexivity).
  split; [exact Hrel|].
  apply (released_operation_fails_at_once torn_down the_instance
           (OpRunTransaction (Some 5%N)) Hrel).
  reflexivity.
Defined.

(** C3, as stated, fails: [RunTransaction] with an empty update function on a
    released instance raises InvalidArgument; it does not return the failed
    future. *)
Lemma RunTransaction_empty_update_on_released :
  released torn_down the_instance ∧
  invoke the_instance (OpRunTransaction None) torn_down
    = Failed (InvalidArgument
        "Transaction update callback cannot be an empty function.") torn_down ∧
  invoke the_instance (OpRunTransaction None) torn_down
    ≠ Ok FailedFuture torn_down.
Proof.
  split; [vm_compute; reflexivity|]. split; [reflexivity|]. discriminate.
Qed.

(** ** Required arguments *)

(** The entry points that check their argument raise InvalidArgument, which
    is not fatal, in the state they were called in. *)
Lemma missing_argument_rejected this m s :
  ∃ message, call_without this m s = (Some (InvalidArgument message), s).
Proof. destruct m; simpl; eexists; reflexivity. Qed.

Lemma empty_string_rejected_by_Collection_and_Document this s :
  failure_of (Collection_string this "" s)
    = Some (InvalidArgument "Collection path cannot be empty.") ∧
  failure_of (Document_string this "" s)
    = Some (InvalidArgument "Document path cannot be empty.") ∧
  failure_of (CollectionGroup this (Some "") s)
    = Some (InvalidArgument "Collection ID cannot be empty.").
Proof. repeat split; reflexivity. Qed.

(** C8: the [std::string] overload of [CollectionGroup] has no check.  With
    an empty collection id it hands the id to the backend of a live instance
    and returns a default [Query] on a released one, where the overload for
    C strings and the string overloads of [Collection] and [Document] raise
    InvalidArgument. *)
Theorem CollectionGroup_string_takes_empty_id :
  CollectionGroup_string the_instance "" live
    = Ok (Query_group the_instance "") live ∧
  CollectionGroup_string the_instance "" torn_down
    = Ok Query_default torn_down ∧
  CollectionGroup the_instance (Some "") live
    = Failed (InvalidArgument "Collection ID cannot be empty.") live ∧
  Collection_string the_instance "" live
    = Failed (InvalidArgument "Collection path cannot be empty.") live.
Proof.
  assert (Hlive : owns live the_instance
            (set_firestore_public the_instance (linked app_A)))
    by (vm_compute; reflexivity).
  assert (Hrel : released torn_down the_instance) by (vm_compute; reflexivity).
  split; [|split; [|split; [reflexivity|reflexivity]]].
  - unfold CollectionGroup_string. by rewrite (with_internal_owns _ _ _ _ _ Hlive).
  - unfold CollectionGroup_string. by rewrite with_internal_released.
Qed.

(** ** Teardown, step by step *)

Lemma DeleteInternal_owns s this i :
  owns s this i →
  (fi_initialized i = true → is_Some (notifiers s !! fi_app i)) →
  ∃ s', DeleteInternal this s = Ok tt s' ∧
    heap s' = <[this := mkFirestore None]> (heap s) ∧
    g_firestores s' = after_erase (fi_app i) (g_firestores s) ∧
    notifiers s' =
      (if fi_initialized i
       then alter (filter (λ o, o ≠ this)) (fi_app i) (notifiers s)
       else notifiers s) ∧
    lock_depth s' = lock_depth s ∧
    trace s' = (trace s ++ [EvLock] ++ unregister_events this i
      ++ [EvClearListeners this; EvCleanupAll this; EvDeleteInternal this]
      ++ erase_events (fi_app i) (g_firestores s) ++ [EvUnlock])%list.
Proof.
  intros Hown Hnot. unfold owns in Hown.
  unfold DeleteInternal, MutexLock, app, FindByOwner, UnregisterObject,
    ClearListeners, CleanupAll, release_internal, cache_erase,
    release_cache_if_empty, FirestoreCache, update_internal, assert_notifier,
    modify, gets, bind, deref, ret, raise.
  assert (Hn : fi_initialized i = false ∨
               ∃ objs, fi_initialized i = true ∧ notifiers s !! fi_app i = Some objs).
  { destruct (fi_initialized i); [right|by left].
    destruct (Hnot eq_refl) as [objs Hobjs]. eauto. }
  unfold unregister_events, erase_events, after_erase.
  destruct Hn as [Hinit|(objs & Hinit & Hobjs)];
    destruct (g_firestores s) as [m|] eqn:Hg;
    repeat (simpl; first [rewrite Hown | rewrite Hinit | rewrite Hobjs | rewrite Hg
                         | rewrite lookup_insert_eq | rewrite delete_empty]);
    simpl; try destruct (bool_decide (delete (fi_app i) m = ∅)) eqn:Hempty;
    simpl; eexists; (split; [reflexivity|]); simpl;
    rewrite !insert_insert_eq, <- !app_assoc; simpl; done.
Qed.


Lemma events_of_appended {A} (call : M A) s evs :
  trace (final_state (call s)) = (trace s ++ evs)%list → events_of call s = evs.
Proof. unfold events_of. intros ->. apply drop_own_length. Qed.

Lemma events_of_DeleteInternal s this i :
  owns s this i →
  (fi_initialized i = true → is_Some (notifiers s !! fi_app i)) →
  events_of (DeleteInternal this) s = DeleteInternal_events this i (g_firestores s).
Proof.
  intros Hown Hnot.
  destruct (DeleteInternal_owns s this i Hown Hnot) as (s' & Hrun & _ & _ & _ & _ & Htr).
  apply events_of_appended. rewrite Hrun. exact Htr.
Qed.

Lemma events_of_delete_Firestore s this i :
  owns s this i →
  (fi_initialized i = true → is_Some (notifiers s !! fi_app i)) →
  events_of (delete_Firestore this) s
    = (DeleteInternal_events this i (g_firestores s) ++ [EvDelete this])%list.
Proof.
  intros Hown Hnot.
  destruct (DeleteInternal_owns s this i Hown Hnot) as (s' & Hrun & _ & _ & _ & _ & Htr).
  apply events_of_appended. unfold delete_Firestore, bind. rewrite Hrun. simpl.
  rewrite Htr. unfold DeleteInternal_events. simpl.
  repeat (rewrite <- app_assoc; simpl). reflexivity.
Qed.

Lemma events_of_OnAppDestroyed s this i :
  owns s this i →
  (fi_initialized i = true → is_Some (notifiers s !! fi_app i)) →
  events_of (OnAppDestroyed this) s
    = EvLogWarning this (fi_app i)
        :: DeleteInternal_events this i (g_firestores s).
Proof.
  intros Hown Hnot.
  apply events_of_appended. unfold OnAppDestroyed, bind.
  rewrite (app_owns s this i Hown). simpl.
  destruct (DeleteInternal_owns (emit (EvLogWarning this (fi_app i)) s) this i)
    as (s' & Hrun & _ & _ & _ & _ & Htr); [exact Hown|exact Hnot|].
  rewrite Hrun. simpl. rewrite Htr. simpl.
  repeat (rewrite <- app_assoc; simpl). reflexivity.
Qed.

Lemma events_of_Terminate s this i :
  owns s this i →
  events_of (Terminate this) s
    = ((match g_firestores s with None => [EvCacheAlloc] | Some _ => [] end)
       ++ [EvCacheErase (fi_app i); EvBackend this CallTerminate])%list.
Proof.
  intros Hown. apply events_of_appended.
  unfold Terminate. rewrite (with_internal_owns _ _ _ _ _ Hown).
  unfold bind. rewrite (app_owns s this i Hown).
  unfold cache_erase, backend, FirestoreCache, bind, modify, ret.
  destruct (g_firestores s); simpl;
    repeat (rewrite <- app_assoc; simpl); reflexivity.
Qed.

Lemma steps_DeleteInternal_events this i cache :
  steps (DeleteInternal_events this i cache) = ordered_steps this i.
Proof.
  unfold DeleteInternal_events, ordered_steps, unregister_events, erase_events.
  destruct (fi_initialized i), cache as [m|]; simpl;
    try destruct (bool_decide (delete (fi_app i) m = ∅)); reflexivity.
Qed.

Lemma teardown_order_DeleteInternal_events this i cache :
  teardown_order (DeleteInternal_events this i cache) = true.
Proof.
  unfold DeleteInternal_events, unregister_events, erase_events.
  destruct (fi_initialized i), cache as [m|]; simpl;
    try destruct (bool_decide (delete (fi_app i) m = ∅)); reflexivity.
Qed.

Ltac teardown_cases i cache :=
  unfold DeleteInternal_events, ordered_steps, unregister_events, erase_events;
  let m := fresh "m" in
  destruct (fi_initialized i), cache as [m|]; simpl;
  try destruct (bool_decide (delete (fi_app i) m = ∅)); reflexivity.

(** C2 (amended): on the paths that run [DeleteInternal] (the destructor and
    the callback of the owner's notifier) the steps are, in this order,
    deregistration when the instance is initialized, listener clearing,
    cleanup, deletion of the internal state, removal from the registry, so
    the fixed order holds.  [Terminate] is not such a path: it removes the
    entry from the registry first and then calls the backend's Terminate,
    with no deregistration and no listener clearing of its own. *)
Theorem teardown_steps_of_each_path s this i :
  owns s this i →
  (fi_initialized i = true → is_Some (notifiers s !! fi_app i)) →
  (steps (events_of (DeleteInternal this) s) = ordered_steps this i ∧
   teardown_order (events_of (DeleteInternal this) s) = true) ∧
  (steps (events_of (delete_Firestore this) s) = ordered_steps this i ∧
   teardown_order (events_of (delete_Firestore this) s) = true) ∧
  (steps (events_of (OnAppDestroyed this) s) = ordered_steps this i ∧
   teardown_order (events_of (OnAppDestroyed this) s) = true) ∧
  steps (events_of (Terminate this) s)
    = [EvCacheErase (fi_app i); EvBackend this CallTerminate].
Proof.
  intros Hown Hnot.
  rewrite (events_of_DeleteInternal s this i Hown Hnot),
    (events_of_delete_Firestore s this i Hown Hnot),
    (events_of_OnAppDestroyed s this i Hown Hnot),
    (events_of_Terminate s this i Hown).
  repeat split; teardown_cases i (g_firestores s).
Qed.

Lemma teardown_steps_of_each_path_witness :
  owns live the_instance (set_firestore_public the_instance (linked app_A)) ∧
  steps (events_of (OnAppDestroyed the_instance) live)
    = [EvUnregisterObject app_A the_instance; EvClearListeners the_instance;
       EvCleanupAll the_instance; EvDeleteInternal the_instance;
       EvCacheErase app_A] ∧
  steps (events_of (Terminate the_instance) live)
    = [EvCacheErase app_A; EvBackend the_instance CallTerminate].
Proof.
  assert (Hown : owns live the_instance
            (set_firestore_public the_instance (linked app_A)))
    by (vm_compute; reflexivity).
  assert (Hnot : fi_initialized (set_firestore_public the_instance (linked app_A)) = true →
                 is_Some (notifiers live
                            !! fi_app (set_firestore_public the_instance (linked app_A))))
    by (intros _; vm_compute; eexists; reflexivity).
  split; [exact Hown|].
  pose proof (teardown_steps_of_each_path live the_instance _ Hown Hnot)
    as (_ & _ & (Hcb & _) & Hterm).
  split; [exact Hcb | exact Hterm].
Defined.

(** C2, as stated, fails on the explicit [Terminate]: the removal from the
    registry is the first event, before any release of the backend, and
    nothing clears the listeners. *)
Lemma Terminate_erases_before_backend_release :
  owns live the_instance (set_firestore_public the_instance (linked app_A)) ∧
  events_of (Terminate the_instance) live
    = [EvCacheErase app_A; EvBackend the_instance CallTerminate] ∧
  preceded is_backend_release is_cache_erase false
    (events_of (Terminate the_instance) live) = false ∧
  teardown_order (events_of (Terminate the_instance) live) = false.
Proof. repeat split; vm_compute; reflexivity. Qed.

(** ** A second teardown, and what a released instance answers *)

Lemma DeleteInternal_dangling s this :
  heap s !! this = None → ∃ s', DeleteInternal this s = Failed InvalidObject s'.
Proof.
  intros Hnone. unfold DeleteInternal, MutexLock, bind, deref. simpl.
  rewrite Hnone. simpl. eauto.
Qed.

Lemma DeleteInternal_without_notifier s this i :
  owns s this i → fi_initialized i = true → notifiers s !! fi_app i = None →
  ∃ s', DeleteInternal this s = Failed AssertFailed s'.
Proof.
  unfold owns. intros Hown Hinit Hnone.
  unfold DeleteInternal, MutexLock, app, FindByOwner, assert_notifier, gets,
    bind, deref, ret, raise.
  repeat (simpl; first [rewrite Hown | rewrite Hinit | rewrite Hnone]).
  simpl. eauto.
Qed.

Lemma DeleteInternal_leaves_released s this s' :
  DeleteInternal this s = Ok tt s' → released s' this.
Proof.
  intros Hrun. destruct (heap s !! this) as [[[i|]]|] eqn:Hobj.
  - destruct (fi_initialized i) eqn:Hinit;
      [destruct (notifiers s !! fi_app i) as [objs|] eqn:Hobjs|].
    + destruct (DeleteInternal_owns s this i Hobj) as (s1 & Hrun1 & Hheap & _);
        [eauto|]. rewrite Hrun1 in Hrun. injection Hrun as <-.
      unfold released. rewrite Hheap. apply lookup_insert_eq.
    + destruct (DeleteInternal_without_notifier s this i Hobj Hinit Hobjs)
        as [s1 Hrun1]. congruence.
    + destruct (DeleteInternal_owns s this i Hobj) as (s1 & Hrun1 & Hheap & _);
        [congruence|]. rewrite Hrun1 in Hrun. injection Hrun as <-.
      unfold released. rewrite Hheap. apply lookup_insert_eq.
  - rewrite (DeleteInternal_released s this Hobj) in Hrun. injection Hrun as <-.
    exact Hobj.
  - destruct (DeleteInternal_dangling s this Hobj) as [s1 Hrun1]. congruence.
Qed.

(** C10 (amended): once the internal state of an instance is released, a
    further [DeleteInternal] takes and gives back the lock and changes
    nothing else, neither the registry nor the notifiers nor any object;
    [app], [settings] and [batch] return default values and [set_settings]
    does nothing; [Collection], [Document] and [CollectionGroup] return
    default values for a path that is neither null nor empty;
    [AddSnapshotsInSyncListener] returns a default registration for a
    callback that is not empty; and every future-returning operation,
    [Terminate] included, returns the failed future when the callback it
    takes, if any, is not empty.  None of these calls changes the state. *)
Theorem released_instance_answers_with_defaults s this :
  released s this →
  (∃ s', DeleteInternal this s = Ok tt s' ∧
     g_firestores s' = g_firestores s ∧ heap s' = heap s ∧
     notifiers s' = notifiers s ∧ lock_depth s' = lock_depth s ∧
     events_of (DeleteInternal this) s = [EvLock; EvUnlock]) ∧
  app this s = Ok nullptr s ∧
  settings this s = Ok Settings_default s ∧
  batch this s = Ok WriteBatch_default s ∧
  (∀ st, set_settings this st s = Ok tt s) ∧
  (∀ p, path_present p = true →
     Collection this p s = Ok CollectionReference_default s ∧
     Document this p s = Ok DocumentReference_default s ∧
     CollectionGroup this p s = Ok Query_default s) ∧
  (∀ cb, AddSnapshotsInSyncListener this (Some cb) s
           = Ok ListenerRegistration_default s) ∧
  (∀ op, callback_present op = true → invoke this op s = Ok FailedFuture s).
Proof.
  intros Hrel.
  assert (Hpath : ∀ p, path_present p = true →
            ∃ path, p = Some path ∧ first_is_nul path = false).
  { intros [path|] Hp; [|discriminate]. exists path. split; [done|].
    simpl in Hp. by destruct (first_is_nul path). }
  split; [|split; [|split; [|split; [|split; [|split; [|split]]]]]].
  - eexists. split; [by apply DeleteInternal_released|].
    repeat split. apply events_of_appended.
    rewrite (DeleteInternal_released s this Hrel). simpl.
    by rewrite <- app_assoc.
  - by apply app_released.
  - unfold settings. by rewrite with_internal_released.
  - unfold batch. by rewrite with_internal_released.
  - intros st. unfold set_settings. by rewrite with_internal_released.
  - intros p Hp. destruct (Hpath p Hp) as (path & -> & Hnul).
    unfold Collection, Document, CollectionGroup. rewrite Hnul.
    by rewrite !with_internal_released.
  - intros cb. unfold AddSnapshotsInSyncListener.
    by rewrite with_internal_released.
  - intros op Hop. by apply invoke_released.
Qed.

Lemma released_instance_answers_with_defaults_witness :
  released torn_down the_instance ∧
  app the_instance torn_down = Ok nullptr torn_down ∧
  Collection the_instance (Some "rooms") torn_down
    = Ok CollectionReference_default torn_down ∧
  invoke the_instance OpTerminate torn_down = Ok FailedFuture torn_down.
Proof.
  assert (Hrel : released torn_down the_instance) by (vm_compute; reflexivity).
  split; [exact Hrel|].
  pose proof (released_instance_answers_with_defaults torn_down the_instance Hrel)
    as (_ & Happ & _ & _ & _ & Hpath & _ & Hop).
  split; [exact Happ|]. split.
  - exact (proj1 (Hpath (Some "rooms") eq_refl)).
  - exact (Hop OpTerminate eq_refl).
Defined.

(** C10, as stated, fails: on a released instance [Collection] with a null
    path raises InvalidArgument; it does not return a default value. *)
Lemma Collection_null_path_on_released :
  released torn_down the_instance ∧
  Collection the_instance None torn_down
    = Failed (InvalidArgument "Collection path cannot be null.") torn_down ∧
  Collection the_instance None torn_down
    ≠ Ok CollectionReference_default torn_down.
Proof.
  split; [vm_compute; reflexivity|]. split; [reflexivity|discriminate].
Qed.

(** ** The storage of the registry *)

Lemma FirestoreCache_created_on_use s :
  g_firestores s = None →
  ∃ s', FirestoreCache s = Ok ∅ s' ∧ g_firestores s' = Some ∅.
Proof. intros Hnone. unfold FirestoreCache. rewrite Hnone. eauto. Qed.

Lemma after_erase_not_empty owner cache : after_erase owner cache ≠ Some ∅.
Proof.
  destruct cache as [m|]; simpl; [|done].
  destruct (bool_decide (delete owner m = ∅)) eqn:Hdec; [done|].
  apply bool_decide_eq_false in Hdec. congruence.
Qed.

(** The teardown gives the map back when it removes the last entry. *)
Lemma DeleteInternal_releases_empty_storage s this i s' :
  owns s this i → DeleteInternal this s = Ok tt s' →
  g_firestores s' = after_erase (fi_app i) (g_firestores s) ∧
  storage_released_when_empty s'.
Proof.
  intros Hown Hrun.
  assert (Hnot : fi_initialized i = true → is_Some (notifiers s !! fi_app i)).
  { intros Hinit. destruct (notifiers s !! fi_app i) eqn:Hobjs; [eauto|].
    destruct (DeleteInternal_without_notifier s this i Hown Hinit Hobjs)
      as [s1 Hrun1]. congruence. }
  destruct (DeleteInternal_owns s this i Hown Hnot) as (s1 & Hrun1 & _ & Hg & _).
  rewrite Hrun1 in Hrun. injection Hrun as <-.
  split; [exact Hg|]. unfold storage_released_when_empty. rewrite Hg.
  apply after_erase_not_empty.
Qed.

(** [Terminate] erases and keeps whatever map is left. *)
Lemma Terminate_keeps_storage s this i :
  owns s this i →
  g_firestores (final_state (Terminate this s))
    = Some (delete (fi_app i) (default ∅ (g_firestores s))).
Proof.
  intros Hown. unfold Terminate. rewrite (with_internal_owns _ _ _ _ _ Hown).
  unfold bind. rewrite (app_owns s this i Hown).
  unfold cache_erase, backend, FirestoreCache, bind, modify, ret.
  destruct (g_firestores s); reflexivity.
Qed.

(** C5: [Terminate] removes the entry of the last registered instance and
    leaves the empty map allocated, where [DeleteInternal] in the same state
    deletes the map and resets the global pointer.  [Terminate] reaches the
    map through [FirestoreCache] without taking the lock that the function
    requires to be held. *)
Theorem Terminate_leaves_empty_map_allocated :
  registered live app_A = Some the_instance ∧
  g_firestores (final_state (Terminate the_instance live)) = Some ∅ ∧
  g_firestores (final_state (DeleteInternal the_instance live)) = None ∧
  lock_depth live = 0 ∧
  events_of (Terminate the_instance) live
    = [EvCacheErase app_A; EvBackend the_instance CallTerminate].
Proof. repeat split; vm_compute; reflexivity. Qed.

(** ** Construction, step by step *)

Lemma unused_address_fresh s :
  unused_address s ≠ nullptr ∧ heap s !! unused_address s = None.
Proof.
  unfold unused_address.
  pose proof (is_fresh ({[nullptr]} ∪ dom (heap s))) as Hfresh.
  split; [set_solver|]. apply not_elem_of_dom. set_solver.
Qed.

Lemma new_Firestore_runs i s :
  (fi_initialized i = true → is_Some (notifiers s !! fi_app i)) →
  ∃ s1, new_Firestore i s = Ok (unused_address s) s1 ∧
    heap s1 = <[unused_address s :=
                 mkFirestore (Some (set_firestore_public (unused_address s) i))]>
                (heap s) ∧
    g_firestores s1 = g_firestores s ∧
    notifiers s1 =
      (if fi_initialized i
       then alter (λ objs, objs ++ [unused_address s]) (fi_app i) (notifiers s)
       else notifiers s) ∧
    lock_depth s1 = lock_depth s ∧
    trace s1 = (trace s ++ EvNew (unused_address s)
                  :: register_events (unused_address s) i)%list.
Proof.
  intros Hnot. set (this := unused_address s).
  assert (Hn : fi_initialized i = false ∨
               ∃ objs, fi_initialized i = true ∧ notifiers s !! fi_app i = Some objs).
  { destruct (fi_initialized i); [right|by left].
    destruct (Hnot eq_refl) as [objs Hobjs]. eauto. }
  unfold new_Firestore, SetClientLanguage, update_internal, app, FindByOwner,
    assert_notifier, RegisterObject, register_events, modify, gets, bind, deref,
    ret, raise.
  fold this.
  destruct Hn as [Hinit|(objs & Hinit & Hobjs)];
    repeat (simpl; first [rewrite Hinit | rewrite Hobjs | rewrite lookup_insert_eq]);
    simpl; eexists; (split; [reflexivity|]); simpl;
    rewrite ?insert_insert_eq; repeat (rewrite <- app_assoc; simpl); done.
Qed.

Lemma new_Firestore_without_notifier i s :
  fi_initialized i = true → notifiers s !! fi_app i = None →
  ∃ s1, new_Firestore i s = Failed AssertFailed s1.
Proof.
  intros Hinit Hnone.
  unfold new_Firestore, SetClientLanguage, update_internal, app, FindByOwner,
    assert_notifier, RegisterObject, modify, gets, bind, deref, ret, raise.
  repeat (simpl; first [rewrite Hinit | rewrite Hnone | rewrite lookup_insert_eq]).
  simpl. eauto.
Qed.

Lemma AddFirestoreToCache_uninitialized s this i out :
  owns s this i → fi_initialized i = false →
  ∃ s', AddFirestoreToCache this out s
          = Ok (nullptr, write_out out kInitResultFailedMissingDependency) s' ∧
    heap s' = delete this (heap s) ∧
    g_firestores s' = after_erase (fi_app i) (g_firestores s) ∧
    notifiers s' = notifiers s ∧
    lock_depth s' = lock_depth s ∧
    trace s' = (trace s ++ DeleteInternal_events this i (g_firestores s)
                  ++ [EvDelete this])%list.
Proof.
  intros Hown Hinit.
  destruct (DeleteInternal_owns s this i Hown) as (s1 & Hrun & Hheap & Hg & Hn & Hl & Htr);
    [congruence|].
  unfold AddFirestoreToCache, CheckInitialized, delete_Firestore, modify, bind, deref, ret.
  rewrite Hown. simpl. rewrite Hinit. simpl. rewrite Hrun. simpl.
  eexists. split; [reflexivity|]. simpl.
  rewrite Hheap, Hg, Hn, Hl, Htr, Hinit, delete_insert_eq.
  unfold DeleteInternal_events. repeat (rewrite <- app_assoc; simpl). done.
Qed.

Lemma AddFirestoreToCache_initialized s this i out :
  owns s this i → fi_initialized i = true →
  ∃ s', AddFirestoreToCache this out s = Ok (this, write_out out kInitResultSuccess) s' ∧
    heap s' = heap s ∧
    g_firestores s' = Some (after_emplace (fi_app i) this (g_firestores s)) ∧
    notifiers s' = notifiers s ∧
    lock_depth s' = lock_depth s ∧
    trace s' = (trace s ++ alloc_events (g_firestores s)
                  ++ [EvCacheEmplace (fi_app i) this])%list.
Proof.
  intros Hown Hinit.
  unfold owns in Hown.
  unfold AddFirestoreToCache, CheckInitialized, cache_emplace, FirestoreCache,
    after_emplace, alloc_events, app, modify, bind, deref, ret.
  destruct (g_firestores s) as [m|] eqn:Hg;
    repeat (simpl; first [rewrite Hown | rewrite Hinit | rewrite Hg]);
    simpl; eexists; (split; [reflexivity|]);
    simpl; repeat (rewrite <- app_assoc; simpl); done.
Qed.

Lemma FindFirestoreInCache_found s owner this out :
  registered s owner = Some this →
  FindFirestoreInCache owner out s = Ok (this, write_out out kInitResultSuccess) s.
Proof.
  unfold registered, FindFirestoreInCache, FirestoreCache, bind, ret.
  destruct (g_firestores s) as [m|]; [|discriminate]. by intros ->.
Qed.

Lemma FindFirestoreInCache_missing s owner out :
  registered s owner = None →
  ∃ s', FindFirestoreInCache owner out s = Ok (nullptr, out) s' ∧
    heap s' = heap s ∧
    g_firestores s' = Some (default ∅ (g_firestores s)) ∧
    notifiers s' = notifiers s ∧
    lock_depth s' = lock_depth s ∧
    trace s' = (trace s ++ alloc_events (g_firestores s))%list.
Proof.
  unfold registered, FindFirestoreInCache, FirestoreCache, alloc_events, bind, ret.
  destruct (g_firestores s) as [m|] eqn:Hg.
  - intros ->. eexists. split; [reflexivity|]. rewrite Hg, app_nil_r. done.
  - intros _. simpl. eexists. split; [reflexivity|]. done.
Qed.

(** ** [GetInstance] and [CreateFirestore], case by case *)

Lemma GetInstance_found factory owner this out s :
  owner ≠ nullptr → registered s owner = Some this → this ≠ nullptr →
  GetInstance factory owner out s
    = Ok (this, write_out out kInitResultSuccess) (release (acquire s)).
Proof.
  intros Howner Hreg Hthis.
  unfold GetInstance, ValidateApp, MutexLock, bind.
  rewrite (app_nonnull owner Howner). simpl.
  rewrite (FindFirestoreInCache_found (acquire s) owner this out Hreg).
  by rewrite (app_nonnull this Hthis).
Qed.

Lemma GetInstance_uninitialized factory owner out s :
  owner ≠ nullptr → registered s owner = None →
  fi_initialized (factory owner) = false →
  ∃ s' this,
    GetInstance factory owner out s
      = Ok (nullptr, write_out out kInitResultFailedMissingDependency) s' ∧
    heap s !! this = None ∧
    heap s' = heap s ∧
    g_firestores s'
      = after_erase (fi_app (factory owner)) (Some (default ∅ (g_firestores s))) ∧
    notifiers s' = notifiers s ∧
    lock_depth s' = lock_depth s ∧
    trace s' = (trace s ++ EvLock :: alloc_events (g_firestores s)
                  ++ EvNew this
                  :: DeleteInternal_events this
                       (set_firestore_public this (factory owner))
                       (Some (default ∅ (g_firestores s)))
                  ++ [EvDelete this; EvUnlock])%list.
Proof.
  intros Howner Hreg Hinit.
  destruct (FindFirestoreInCache_missing (acquire s) owner out Hreg)
    as (s1 & Hfind & Hh1 & Hg1 & Hn1 & Hl1 & Ht1).
  destruct (new_Firestore_runs (factory owner) s1)
    as (s2 & Hnew & Hh2 & Hg2 & Hn2 & Hl2 & Ht2); [congruence|].
  destruct (unused_address_fresh s1) as [_ Hfresh].
  set (this := unused_address s1) in *.
  set (i := set_firestore_public this (factory owner)) in *.
  destruct (AddFirestoreToCache_uninitialized s2 this i out)
    as (s3 & Hadd & Hh3 & Hg3 & Hn3 & Hl3 & Ht3);
    [unfold owns; rewrite Hh2; apply lookup_insert_eq | exact Hinit |].
  assert (Happ : fi_app i = fi_app (factory owner)) by reflexivity.
  assert (Hi : i = set_firestore_public this (factory owner)) by reflexivity.
  clearbody i this.
  unfold GetInstance, ValidateApp, MutexLock, bind.
  rewrite (app_nonnull owner Howner). simpl.
  rewrite Hfind. simpl. rewrite Hnew, Hadd. simpl is_fatal.
  exists (release s3), this.
  split; [reflexivity|].
  unfold register_events in Ht2. rewrite Hinit in Ht2, Hn2.
  change (heap (release s3)) with (heap s3).
  change (g_firestores (release s3)) with (g_firestores s3).
  change (notifiers (release s3)) with (notifiers s3).
  change (lock_depth (release s3)) with (pred (lock_depth s3)).
  change (trace (release s3)) with (trace s3 ++ [EvUnlock])%list.
  change (heap (acquire s)) with (heap s) in Hh1.
  change (g_firestores (acquire s)) with (g_firestores s) in Hg1, Ht1.
  change (notifiers (acquire s)) with (notifiers s) in Hn1.
  change (lock_depth (acquire s)) with (S (lock_depth s)) in Hl1.
  change (trace (acquire s)) with (trace s ++ [EvLock])%list in Ht1.
  rewrite Hh3, Hh2, (delete_insert_id _ _ _ Hfresh), Hg3, Hg2, Hg1,
    Hn3, Hn2, Hn1, Hl3, Hl2, Hl1, Ht3, Ht2, Ht1, Hg2, Hg1, Happ.
  rewrite Hh1 in Hfresh |- *. subst i.
  repeat split; try done. repeat (rewrite <- app_assoc; simpl). reflexivity.
Qed.

Lemma GetInstance_initialized factory owner out s :
  owner ≠ nullptr → registered s owner = None →
  fi_initialized (factory owner) = true →
  is_Some (notifiers s !! fi_app (factory owner)) →
  ∃ s' this mid,
    GetInstance factory owner out s = Ok (this, write_out out kInitResultSuccess) s' ∧
    this ≠ nullptr ∧ heap s !! this = None ∧
    heap s' = <[this := mkFirestore (Some (set_firestore_public this (factory owner)))]>
                (heap s) ∧
    g_firestores s'
      = Some (after_emplace (fi_app (factory owner)) this (g_firestores s)) ∧
    lock_depth s' = lock_depth s ∧
    trace s' = (trace s ++ EvLock :: mid ++ [EvUnlock])%list.
Proof.
  intros Howner Hreg Hinit Hnot.
  destruct (FindFirestoreInCache_missing (acquire s) owner out Hreg)
    as (s1 & Hfind & Hh1 & Hg1 & Hn1 & Hl1 & Ht1).
  destruct (new_Firestore_runs (factory owner) s1)
    as (s2 & Hnew & Hh2 & Hg2 & Hn2 & Hl2 & Ht2); [by rewrite Hn1|].
  destruct (unused_address_fresh s1) as [Hnonnull Hfresh].
  set (this := unused_address s1) in *.
  set (i := set_firestore_public this (factory owner)) in *.
  destruct (AddFirestoreToCache_initialized s2 this i out)
    as (s3 & Hadd & Hh3 & Hg3 & Hn3 & Hl3 & Ht3);
    [unfold owns; rewrite Hh2; apply lookup_insert_eq | exact Hinit |].
  assert (Happ : fi_app i = fi_app (factory owner)) by reflexivity.
  assert (Hi : i = set_firestore_public this (factory owner)) by reflexivity.
  clearbody i this.
  unfold GetInstance, ValidateApp, MutexLock, bind.
  rewrite (app_nonnull owner Howner). simpl.
  rewrite Hfind. simpl. rewrite Hnew, Hadd.
  exists (release s3), this,
    (alloc_events (g_firestores s) ++ EvNew this
       :: register_events this (factory owner)
       ++ [EvCacheEmplace (fi_app (factory owner)) this])%list.
  split; [reflexivity|].
  change (heap (release s3)) with (heap s3).
  change (g_firestores (release s3)) with (g_firestores s3).
  change (lock_depth (release s3)) with (pred (lock_depth s3)).
  change (trace (release s3)) with (trace s3 ++ [EvUnlock])%list.
  change (heap (acquire s)) with (heap s) in Hh1.
  change (g_firestores (acquire s)) with (g_firestores s) in Hg1, Ht1.
  change (lock_depth (acquire s)) with (S (lock_depth s)) in Hl1.
  change (trace (acquire s)) with (trace s ++ [EvLock])%list in Ht1.
  rewrite Hh1 in Hfresh.
  rewrite Hh3, Hh2, Hh1, Hg3, Hg2, Hg1, Hl3, Hl2, Hl1, Ht3, Ht2, Ht1, Hg2, Hg1,
    Happ, Hi.
  repeat split; try done.
  unfold alloc_events at 2. simpl.
  repeat (rewrite <- app_assoc; simpl). rewrite ?app_nil_r. reflexivity.
Qed.

Lemma GetInstance_without_notifier factory owner out s :
  owner ≠ nullptr → registered s owner = None →
  fi_initialized (factory owner) = true →
  notifiers s !! fi_app (factory owner) = None →
  ∃ s', GetInstance factory owner out s = Failed AssertFailed s'.
Proof.
  intros Howner Hreg Hinit Hnone.
  destruct (FindFirestoreInCache_missing (acquire s) owner out Hreg)
    as (s1 & Hfind & Hh1 & Hg1 & Hn1 & Hl1 & Ht1).
  destruct (new_Firestore_without_notifier (factory owner) s1 Hinit)
    as [s2 Hnew]; [by rewrite Hn1|].
  unfold GetInstance, ValidateApp, MutexLock, bind.
  rewrite (app_nonnull owner Howner). simpl.
  rewrite Hfind. simpl. rewrite Hnew. simpl. eauto.
Qed.

(** ** The registry stays sound *)

Lemma registry_sound_same s s' :
  g_firestores s' = g_firestores s → heap s' = heap s →
  registry_sound s → registry_sound s'.
Proof.
  unfold registry_sound, registered, owns. intros -> -> Hs. exact Hs.
Qed.

Lemma registry_sound_shrink s s' :
  heap s' = heap s →
  (∀ owner this, registered s' owner = Some this → registered s owner = Some this) →
  registry_sound s → registry_sound s'.
Proof.
  unfold registry_sound, owns. intros -> Hsub Hs owner this Hreg.
  apply Hs, Hsub, Hreg.
Qed.

Lemma registered_after_erase s s' x owner this :
  g_firestores s' = after_erase x (Some (default ∅ (g_firestores s))) →
  registered s' owner = Some this → registered s owner = Some this.
Proof.
  unfold registered, after_erase. intros ->.
  destruct (bool_decide _); [discriminate|].
  intros [_ Hm]%lookup_delete_Some.
  destruct (g_firestores s); simpl in Hm; [done|]. by rewrite lookup_empty in Hm.
Qed.

Lemma registered_after_emplace s s' x new owner this :
  g_firestores s' = Some (after_emplace x new (g_firestores s)) →
  registered s' owner = Some this →
  registered s owner = Some this ∨ (owner = x ∧ this = new).
Proof.
  unfold registered, after_emplace. intros ->.
  assert (Hold : ∀ o t, default ∅ (g_firestores s) !! o = Some t →
                        match g_firestores s with
                        | Some cache => cache !! o
                        | None => None
                        end = Some t).
  { intros o t. destruct (g_firestores s); simpl; [done|]. by rewrite lookup_empty. }
  destruct (default ∅ (g_firestores s) !! x) eqn:Hx.
  - intros Hm. left. by apply Hold.
  - intros [[-> ->]|[_ Hm]]%lookup_insert_Some; [by right|left; by apply Hold].
Qed.

Lemma registry_sound_extend s s' x new i :
  heap s !! new = None → new ≠ nullptr →
  heap s' = <[new := mkFirestore (Some i)]> (heap s) →
  g_firestores s' = Some (after_emplace x new (g_firestores s)) →
  fi_initialized i = true → fi_app i = x →
  registry_sound s → registry_sound s'.
Proof.
  intros Hfresh Hnew Hheap Hg Hinit Happ Hs owner this Hreg.
  destruct (registered_after_emplace s s' x new owner this Hg Hreg)
    as [Hold|[-> ->]].
  - destruct (Hs owner this Hold) as (Hthis & i0 & Hown & Hinit0 & Happ0).
    split; [exact Hthis|]. exists i0. repeat split; try done.
    unfold owns in *. rewrite Hheap, lookup_insert_ne; [done|congruence].
  - split; [exact Hnew|]. exists i. repeat split; try done.
    unfold owns. rewrite Hheap. apply lookup_insert_eq.
Qed.

(** Every successful [GetInstance] leaves the registry sound and returns
    either null or an instance whose internal is initialized. *)
Lemma GetInstance_keeps_registry_sound factory owner out s r s' :
  owner ≠ nullptr → registry_sound s →
  GetInstance factory owner out s = Ok r s' →
  registry_sound s' ∧
  (r.1 ≠ nullptr → ∃ i, owns s' r.1 i ∧ fi_initialized i = true).
Proof.
  intros Howner Hs Hrun.
  destruct (registered s owner) as [this|] eqn:Hreg.
  - destruct (Hs owner this Hreg) as (Hthis & i & Hown & Hinit & _).
    rewrite (GetInstance_found factory owner this out s Howner Hreg Hthis) in Hrun.
    injection Hrun as <- <-. split.
    + by apply (registry_sound_same s).
    + intros _. exists i. split; [exact Hown|exact Hinit].
  - destruct (fi_initialized (factory owner)) eqn:Hinit.
    + destruct (notifiers s !! fi_app (factory owner)) as [objs|] eqn:Hobjs.
      * destruct (GetInstance_initialized factory owner out s Howner Hreg Hinit)
          as (s1 & this & mid & Hrun1 & Hthis & Hfresh & Hheap & Hg & _); [eauto|].
        rewrite Hrun1 in Hrun. injection Hrun as <- <-. split.
        -- by apply (registry_sound_extend s s1 (fi_app (factory owner)) this
                       (set_firestore_public this (factory owner))).
        -- intros _. exists (set_firestore_public this (factory owner)).
           split; [|exact Hinit].
           unfold owns. rewrite Hheap. apply lookup_insert_eq.
      * destruct (GetInstance_without_notifier factory owner out s Howner Hreg
                    Hinit Hobjs) as [s1 Hrun1]. congruence.
    + destruct (GetInstance_uninitialized factory owner out s Howner Hreg Hinit)
        as (s1 & this & Hrun1 & _ & Hheap & Hg & _).
      rewrite Hrun1 in Hrun. injection Hrun as <- <-. split.
      * apply (registry_sound_shrink s); [exact Hheap| |exact Hs].
        intros o t. by apply (registered_after_erase s s1 (fi_app (factory owner))).
      * intros Hnull. by destruct Hnull.
Qed.

Lemma registered_after_erase_other s s' x owner this :
  g_firestores s' = after_erase x (g_firestores s) →
  registered s' owner = Some this →
  registered s owner = Some this ∧ owner ≠ x.
Proof.
  unfold registered, after_erase. intros ->.
  destruct (g_firestores s) as [m|]; [|discriminate].
  destruct (bool_decide _); [discriminate|].
  intros [Hne Hm]%lookup_delete_Some. split; [exact Hm|congruence].
Qed.

(** The teardown keeps the registry sound: the entry of the instance is
    the only one that can designate it, and it is erased. *)
Lemma DeleteInternal_keeps_registry_sound s this s' :
  registry_sound s → DeleteInternal this s = Ok tt s' → registry_sound s'.
Proof.
  intros Hs Hrun. destruct (heap s !! this) as [[[i|]]|] eqn:Hobj.
  - assert (Hnot : fi_initialized i = true → is_Some (notifiers s !! fi_app i)).
    { intros Hinit. destruct (notifiers s !! fi_app i) eqn:Hobjs; [eauto|].
      destruct (DeleteInternal_without_notifier s this i Hobj Hinit Hobjs)
        as [s1 Hrun1]. congruence. }
    destruct (DeleteInternal_owns s this i Hobj Hnot)
      as (s1 & Hrun1 & Hheap & Hg & _).
    rewrite Hrun1 in Hrun. injection Hrun as <-.
    intros owner f Hreg.
    destruct (registered_after_erase_other s s1 _ owner f Hg Hreg) as [Hold Hne].
    destruct (Hs owner f Hold) as (Hf & i0 & Hown & Hinit0 & Happ0).
    split; [exact Hf|]. exists i0. repeat split; try done.
    unfold owns in *. rewrite Hheap, lookup_insert_ne; [done|].
    intros <-. rewrite Hobj in Hown. injection Hown as <-. congruence.
  - rewrite (DeleteInternal_released s this Hobj) in Hrun. injection Hrun as <-.
    by apply (registry_sound_same s).
  - destruct (DeleteInternal_dangling s this Hobj) as [s1 Hrun1]. congruence.
Qed.

Lemma Terminate_keeps_registry_sound s this r s' :
  registry_sound s → Terminate this s = Ok r s' → registry_sound s'.
Proof.
  intros Hs Hrun. destruct (heap s !! this) as [[[i|]]|] eqn:Hobj.
  - pose proof (Terminate_keeps_storage s this i Hobj) as Hg.
    assert (Hheap : heap (final_state (Terminate this s)) = heap s).
    { unfold Terminate. rewrite (with_internal_owns _ _ _ _ _ Hobj).
      unfold bind. rewrite (app_owns s this i Hobj).
      unfold cache_erase, backend, FirestoreCache, bind, modify, ret.
      by destruct (g_firestores s). }
    rewrite Hrun in Hg, Hheap. simpl in Hg, Hheap.
    apply (registry_sound_shrink s); [exact Hheap| |exact Hs].
    unfold registered. rewrite Hg. intros owner f [_ Hm]%lookup_delete_Some.
    destruct (g_firestores s); simpl in Hm; [done|]. by rewrite lookup_empty in Hm.
  - unfold Terminate in Hrun. rewrite with_internal_released in Hrun by done.
    injection Hrun as <- <-. exact Hs.
  - unfold Terminate, with_internal, bind, deref in Hrun.
    rewrite Hobj in Hrun. discriminate Hrun.
Qed.

(** C1: for an owner that is not null, in a state whose registry is sound,
    [GetInstance] takes the lock and returns the instance registered for the
    owner when there is one, leaving the registry and the objects as they
    are.  When there is none and the internal built for the owner is not
    initialized, it constructs an instance at an unused address, tears it
    down and frees it, writes MissingDependency through [init_result_out],
    returns null, and ends with no entry for the owner and with the objects
    it started with, the lock given back.  Whatever it returns, the registry
    stays sound (every entry designates a live, initialized instance) and a
    returned pointer that is not null designates such an instance. *)
Theorem GetInstance_gets_or_creates factory owner out s :
  owner ≠ nullptr → registry_sound s →
  match registered s owner with
  | Some this =>
      GetInstance factory owner out s
        = Ok (this, write_out out kInitResultSuccess) (release (acquire s))
  | None =>
      if fi_initialized (factory owner) then
        is_Some (notifiers s !! fi_app (factory owner)) →
        ∃ s' this,
          GetInstance factory owner out s
            = Ok (this, write_out out kInitResultSuccess) s' ∧
          this ≠ nullptr ∧ heap s !! this = None ∧
          owns s' this (set_firestore_public this (factory owner)) ∧
          (fi_app (factory owner) = owner → registered s' owner = Some this)
      else
        ∃ s' this,
          GetInstance factory owner out s
            = Ok (nullptr, write_out out kInitResultFailedMissingDependency) s' ∧
          registered s' owner = None ∧
          heap s !! this = None ∧ heap s' = heap s ∧
          notifiers s' = notifiers s ∧ lock_depth s' = lock_depth s ∧
          events_of (GetInstance factory owner out) s
            = (EvLock :: alloc_events (g_firestores s)
                 ++ EvNew this
                 :: DeleteInternal_events this
                      (set_firestore_public this (factory owner))
                      (Some (default ∅ (g_firestores s)))
                 ++ [EvDelete this; EvUnlock])%list
  end ∧
  (∀ r s', GetInstance factory owner out s = Ok r s' →
     registry_sound s' ∧
     (r.1 ≠ nullptr → ∃ i, owns s' r.1 i ∧ fi_initialized i = true)).
Proof.
  intros Howner Hs. split.
  - destruct (registered s owner) as [this|] eqn:Hreg.
    + destruct (Hs owner this Hreg) as [Hthis _].
      by apply GetInstance_found.
    + destruct (fi_initialized (factory owner)) eqn:Hinit.
      { intros Hnot.
        destruct (GetInstance_initialized factory owner out s Howner Hreg Hinit Hnot)
          as (s' & this & mid & Hrun & Hthis & Hfresh & Hheap & Hg & _).
        exists s', this. repeat split; try done.
        - unfold owns. rewrite Hheap. apply lookup_insert_eq.
        - intros Happ. unfold registered. rewrite Hg, Happ. unfold after_emplace.
          assert (Hnone : default ∅ (g_firestores s) !! owner = None).
          { unfold registered in Hreg. destruct (g_firestores s); [done|].
            apply lookup_empty. }
          rewrite Hnone. apply lookup_insert_eq. }
      destruct (GetInstance_uninitialized factory owner out s Howner Hreg Hinit)
        as (s' & this & Hrun & Hfresh & Hheap & Hg & Hn & Hl & Htr).
      exists s', this. repeat split; try done.
      * destruct (registered s' owner) as [t|] eqn:Hreg'; [|done].
        apply (registered_after_erase s s' _ owner t Hg) in Hreg'. congruence.
      * apply events_of_appended. rewrite Hrun. exact Htr.
  - intros r s'. by apply GetInstance_keeps_registry_sound.
Qed.

Lemma registry_sound_boot : registry_sound boot.
Proof. intros owner this Hreg. discriminate Hreg. Qed.

Lemma registered_live : registered live app_A = Some the_instance.
Proof. vm_compute. reflexivity. Qed.

Lemma registry_sound_live : registry_sound live.
Proof.
  assert (Hrun : GetInstance linked app_A (Some kInitResultFailedMissingDependency)
                   boot = Ok (the_instance, Some kInitResultSuccess) live)
    by (vm_compute; reflexivity).
  assert (Howner : app_A ≠ nullptr) by discriminate.
  apply (GetInstance_keeps_registry_sound _ _ _ _ _ _ Howner
           registry_sound_boot Hrun).
Qed.

Lemma GetInstance_gets_or_creates_witness :
  (app_A ≠ nullptr ∧ registry_sound boot ∧
   ∃ s', GetInstance unlinked app_A (Some kInitResultSuccess) boot
           = Ok (nullptr, Some kInitResultFailedMissingDependency) s' ∧
         registered s' app_A = None ∧ heap s' = heap boot) ∧
  (registry_sound live ∧
   GetInstance linked app_A (Some kInitResultFailedMissingDependency) live
     = Ok (the_instance, Some kInitResultSuccess) (release (acquire live))).
Proof.
  assert (Howner : app_A ≠ nullptr) by discriminate.
  split.
  - split; [exact Howner|]. split; [exact registry_sound_boot|].
    destruct (GetInstance_gets_or_creates unlinked app_A (Some kInitResultSuccess)
                boot Howner registry_sound_boot) as [Hcase _].
    change (registered boot app_A) with (@None N) in Hcase.
    change (fi_initialized (unlinked app_A)) with false in Hcase.
    destruct Hcase as (s' & this & Hrun & Hreg & _ & Hheap & _).
    exists s'. split; [exact Hrun|]. split; [exact Hreg|exact Hheap].
  - split; [exact registry_sound_live|].
    destruct (GetInstance_gets_or_creates linked app_A
                (Some kInitResultFailedMissingDependency) live Howner
                registry_sound_live) as [Hcase _].
    rewrite registered_live in Hcase. exact Hcase.
Defined.

Lemma CreateFirestore_existing owner this internal out s :
  owner ≠ nullptr → registered s owner = Some this → this ≠ nullptr →
  CreateFirestore owner (Some internal) out s
    = Failed (HardAssertFailed "Firestore must not be created already") (acquire s).
Proof.
  intros Howner Hreg Hthis.
  unfold CreateFirestore, ValidateApp, MutexLock, bind.
  rewrite (app_nonnull owner Howner). simpl.
  rewrite (FindFirestoreInCache_found (acquire s) owner this out Hreg).
  by rewrite (app_nonnull this Hthis).
Qed.

Lemma CreateFirestore_null_internal owner out s :
  owner ≠ nullptr →
  CreateFirestore owner None out s
    = Failed (HardAssertFailed "Provided FirestoreInternal must not be null.") s.
Proof.
  intros Howner. unfold CreateFirestore, ValidateApp, bind.
  by rewrite (app_nonnull owner Howner).
Qed.

(** C4: when the registry holds an entry for the owner, [CreateFirestore]
    with an internal supplied by the caller stops at the hard assertion
    "Firestore must not be created already", which is fatal, with the
    registry and the objects untouched (it fails fatally for a null internal
    too, at the assertion before); [GetInstance] for the same owner in the
    same state returns the registered instance and reports success. *)
Theorem CreateFirestore_asserts_where_GetInstance_returns
    factory owner this out s :
  owner ≠ nullptr → registered s owner = Some this → this ≠ nullptr →
  (∀ internal,
     CreateFirestore owner (Some internal) out s
       = Failed (HardAssertFailed "Firestore must not be created already")
           (acquire s)) ∧
  is_fatal (HardAssertFailed "Firestore must not be created already") = true ∧
  g_firestores (acquire s) = g_firestores s ∧ heap (acquire s) = heap s ∧
  (∀ internal, ∃ e s', CreateFirestore owner internal out s = Failed e s' ∧
                       is_fatal e = true) ∧
  GetInstance factory owner out s
    = Ok (this, write_out out kInitResultSuccess) (release (acquire s)).
Proof.
  intros Howner Hreg Hthis. repeat split.
  - intros internal. by apply (CreateFirestore_existing owner this).
  - intros [internal|].
    + eexists _, _. split; [by apply (CreateFirestore_existing owner this)|done].
    + eexists _, _. split; [by apply CreateFirestore_null_internal|done].
  - by apply GetInstance_found.
Qed.

Lemma CreateFirestore_asserts_where_GetInstance_returns_witness :
  registered live app_A = Some the_instance ∧
  CreateFirestore app_A (Some (linked app_A)) None live
    = Failed (HardAssertFailed "Firestore must not be created already")
        (acquire live) ∧
  GetInstance linked app_A None live = Ok (the_instance, None) (release (acquire live)).
Proof.
  assert (Howner : app_A ≠ nullptr) by discriminate.
  assert (Hthis : the_instance ≠ nullptr) by (vm_compute; discriminate).
  split; [exact registered_live|].
  destruct (CreateFirestore_asserts_where_GetInstance_returns linked app_A
              the_instance None live Howner registered_live Hthis)
    as (Hcreate & _ & _ & _ & _ & Hget).
  split; [exact (Hcreate (linked app_A))|exact Hget].
Defined.

End FirestoreFacts.

(** * Facts about the thread handle *)

Module ThreadFacts.

Import Thread.

Section Handles.

Context {S : Type}.
Implicit Types (w : World S) (h : Handle) (v : nat).

Lemma read_some w v h : vars w !! v = Some h → read v w = Returned h w.
Proof. unfold read. by intros ->. Qed.

Lemma and_then_returned {A B} (m : T S A) (k : A → T S B) w a w' :
  m w = Returned a w' → and_then m k w = k a w'.
Proof. unfold and_then. by intros ->. Qed.

Lemma Join_refused w v h :
  vars w !! v = Some h → Joinable h = false → Join v w = Thrown invalid_argument w.
Proof.
  intros Hv Hj. unfold Join, and_then. rewrite (read_some w v h Hv).
  destruct h; simpl in *; done.
Qed.

Lemma Detach_refused w v h :
  vars w !! v = Some h → Joinable h = false → Detach v w = Thrown invalid_argument w.
Proof.
  intros Hv Hj. unfold Detach, and_then. rewrite (read_some w v h Hv).
  destruct h; simpl in *; done.
Qed.

Lemma Join_running w v id :
  vars w !! v = Some (RunningJoinable id) →
  ∃ w', Join v w = Returned tt w' ∧ vars w' = <[v := Retired]> (vars w) ∧
        current w' = current w ∧
        memory w' = (complete id (pending w) (memory w)).2.
Proof.
  intros Hv. unfold Join, and_then. rewrite (read_some w v _ Hv).
  destruct (complete id (pending w) (memory w)) as [units m] eqn:Hc.
  simpl. eexists. split; [reflexivity|]. done.
Qed.

Lemma Detach_running w v id :
  vars w !! v = Some (RunningJoinable id) →
  ∃ w', Detach v w = Returned tt w' ∧
        vars w' = <[v := RunningDetached id]> (vars w) ∧
        current w' = current w ∧ memory w' = memory w.
Proof.
  intros Hv. unfold Detach, and_then. rewrite (read_some w v _ Hv).
  simpl. eexists. split; [reflexivity|]. done.
Qed.

Lemma written_handle (l : list Handle) v h h' :
  l !! v = Some h → <[v := h']> l !! v = Some h'.
Proof. intros Hv. apply list_lookup_insert_eq. by eapply lookup_lt_Some. Qed.

(** C6 (amended): [Join] and [Detach] on a handle that is not joinable
    (Empty, Retired after a [Join], or detached) are refused by throwing a
    [std::system_error] with code [invalid_argument] and leave the program
    as it was, so the caller can catch the error and go on; this covers a
    second [Join] or [Detach] after either of them succeeded on a
    Running-Joinable handle. *)
Theorem refused_Join_and_Detach_throw w v h :
  vars w !! v = Some h →
  if Joinable h then
    ∃ w1 w2,
      Join v w = Returned tt w1 ∧
      Join v w1 = Thrown invalid_argument w1 ∧
      Detach v w1 = Thrown invalid_argument w1 ∧
      Detach v w = Returned tt w2 ∧
      Join v w2 = Thrown invalid_argument w2 ∧
      Detach v w2 = Thrown invalid_argument w2
  else
    Join v w = Thrown invalid_argument w ∧
    Detach v w = Thrown invalid_argument w.
Proof.
  intros Hv. destruct (Joinable h) eqn:Hj.
  - destruct h as [|id| |]; try discriminate.
    destruct (Join_running w v id Hv) as (w1 & HJ & Hvars1 & _).
    destruct (Detach_running w v id Hv) as (w2 & HD & Hvars2 & _).
    assert (H1 : vars w1 !! v = Some Retired)
      by (rewrite Hvars1; by eapply written_handle).
    assert (H2 : vars w2 !! v = Some (RunningDetached id))
      by (rewrite Hvars2; by eapply written_handle).
    exists w1, w2. repeat split; try done.
    + by apply (Join_refused w1 v Retired).
    + by apply (Detach_refused w1 v Retired).
    + by apply (Join_refused w2 v (RunningDetached id)).
    + by apply (Detach_refused w2 v (RunningDetached id)).
  - split; [by apply (Join_refused w v h)|by apply (Detach_refused w v h)].
Qed.

(** ** Moving and destroying handles *)

Lemma declared_handle (l : list Handle) h : (l ++ [h]) !! List.length l = Some h.
Proof. by apply list_lookup_middle. Qed.

Lemma old_handle (l : list Handle) h v h' :
  l !! v = Some h' → (l ++ [h]) !! v = Some h'.
Proof. intros Hv. by apply lookup_app_l_Some. Qed.

Lemma joinable_handle_ends_scope (l : list Handle) v id :
  l !! v = Some (RunningJoinable id) → forallb destroy (rev l) = false.
Proof.
  intros Hv. destruct (forallb destroy (rev l)) eqn:Hall; [|done].
  rewrite forallb_forall in Hall.
  assert (Hin : In (RunningJoinable id) (rev l)).
  { apply in_rev. rewrite rev_involutive. apply list_elem_of_In.
    by eapply list_elem_of_lookup_2. }
  specialize (Hall _ Hin). discriminate Hall.
Qed.

(** C7: move construction and move assignment hand the unit of execution of
    a Running-Joinable source to the target: afterwards the source is Empty
    and not joinable, the target Running-Joinable and joinable.  Move
    assignment into a Running-Joinable target terminates the process
    whatever the source is, and so does leaving a scope, by return or by
    exception, while one of its handles is Running-Joinable. *)
Theorem move_transfers_and_running_handle_is_guarded w source id :
  vars w !! source = Some (RunningJoinable id) →
  (∃ w', move_construct source w = Returned (List.length (vars w)) w' ∧
         vars w' !! source = Some Empty ∧
         vars w' !! List.length (vars w) = Some (RunningJoinable id) ∧
         IsJoinable source w' = Returned false w' ∧
         IsJoinable (List.length (vars w)) w' = Returned true w') ∧
  (∀ target ht, vars w !! target = Some ht → Joinable ht = false →
     ∃ w', move_assign target source w = Returned tt w' ∧
           vars w' !! source = Some Empty ∧
           vars w' !! target = Some (RunningJoinable id) ∧
           IsJoinable source w' = Returned false w' ∧
           IsJoinable target w' = Returned true w') ∧
  (∀ other, move_assign source other w = Terminated) ∧
  destroy (RunningJoinable id) = false ∧
  (∀ A (a : A), leave_scope (Returned a w) = Terminated) ∧
  (∀ A code, leave_scope (@Thrown S A code w) = Terminated).
Proof.
  intros Hs. pose proof (lookup_lt_Some _ _ _ Hs) as Hlt.
  assert (Hne : source ≠ List.length (vars w)) by lia.
  repeat split.
  - unfold move_construct, and_then, write, declare.
    rewrite (read_some w source _ Hs). simpl.
    rewrite length_insert.
    eexists. split; [reflexivity|]. simpl.
    assert (H1 : (<[source:=Empty]> (vars w) ++ [RunningJoinable id]) !! source
                 = Some Empty).
    { apply old_handle. by eapply written_handle. }
    assert (H2 : (<[source:=Empty]> (vars w) ++ [RunningJoinable id])
                   !! List.length (vars w) = Some (RunningJoinable id)).
    { rewrite <- (length_insert (vars w) source Empty). apply declared_handle. }
    repeat split; try done.
    + unfold IsJoinable, and_then, read. simpl. by rewrite H1.
    + unfold IsJoinable, and_then, read. simpl. by rewrite H2.
  - intros target ht Ht Hj.
    assert (Hts : target ≠ source) by (intros ->; rewrite Hs in Ht; by injection Ht as <-).
    pose proof (lookup_lt_Some _ _ _ Ht) as Hlt'.
    unfold move_assign, and_then, write.
    rewrite (read_some w target _ Ht), Hj. rewrite (read_some w source _ Hs). simpl.
    eexists. split; [reflexivity|]. simpl.
    assert (H1 : <[target:=RunningJoinable id]> (<[source:=Empty]> (vars w)) !! source
                 = Some Empty).
    { rewrite list_lookup_insert_ne; [|done]. by eapply written_handle. }
    assert (H2 : <[target:=RunningJoinable id]> (<[source:=Empty]> (vars w)) !! target
                 = Some (RunningJoinable id)).
    { apply list_lookup_insert_eq. by rewrite length_insert. }
    repeat split; try done.
    + unfold IsJoinable, and_then, read. simpl. by rewrite H1.
    + unfold IsJoinable, and_then, read. simpl. by rewrite H2.
  - intros other. unfold move_assign, and_then.
    by rewrite (read_some w source _ Hs).
  - intros A a. unfold leave_scope.
    by rewrite (joinable_handle_ends_scope (vars w) source id Hs).
  - intros A code. unfold leave_scope.
    by rewrite (joinable_handle_ends_scope (vars w) source id Hs).
Qed.

(** ** Thread ids *)

Lemma fresh_id_not_current w : fresh_id w ≠ current w.
Proof. unfold fresh_id. simpl. lia. Qed.

Lemma complete_started_last id units callable (m : S) :
  complete id (units ++ [(id, callable)]) m
    = ((complete id units m).1, callable id (complete id units m).2).
Proof.
  revert m. induction units as [|[id' c] units IH]; intros m; simpl.
  - by rewrite Nat.eqb_refl.
  - destruct (Nat.eqb id' id); [apply IH|].
    rewrite IH. by destruct (complete id units m).
Qed.

Lemma scope_of_retired (l : list Handle) :
  forallb destroy l = true → forallb destroy (rev (l ++ [Retired])) = true.
Proof.
  intros Hl. rewrite rev_app_distr. simpl.
  rewrite forallb_forall in *. intros h Hin. apply Hl. by apply in_rev.
Qed.

End Handles.

(** C9: an id is a value that names the execution context.  [CurrentId]
    called twice in one context gives the same id both times and
    [IsCurrentThread] holds of it; the id of a started unit differs from the
    id of the context that starts it, so the id a unit captured,
    handed to [IsCurrentThread] in the starting context, gives false: the
    two tests of the repository pass in every world whose scope holds no
    handle left joinable. *)
Theorem thread_id_is_a_value (w : World nat) :
  forallb destroy (vars w) = true →
  and_then CurrentId (λ a, and_then CurrentId (λ b, unit_ (a, b))) w
    = Returned (current w, current w) w ∧
  IsCurrentThread (current w) w = Returned true w ∧
  ThreadIsEqualToItself w = true ∧
  IsCurrentThread (fresh_id w) w = Returned false w ∧
  ThreadIsNotEqualToDifferentThread w = true.
Proof.
  intros Hscope.
  assert (Hrev : forallb destroy (rev (vars w)) = true).
  { rewrite forallb_forall in *. intros h Hin. apply Hscope. by apply in_rev. }
  assert (Hfresh : Nat.eqb (fresh_id w) (current w) = false)
    by (apply Nat.eqb_neq, fresh_id_not_current).
  repeat split.
  - unfold IsCurrentThread. by rewrite Nat.eqb_refl.
  - unfold ThreadIsEqualToItself, passes, block, leave_scope, and_then, CurrentId,
      IsCurrentThread, unit_. rewrite Nat.eqb_refl, Hrev. reflexivity.
  - unfold IsCurrentThread. by rewrite Hfresh.
  - set (w0 := set_memory (current w) w).
    set (id := fresh_id w).
    set (w1 := mkWorld (current w) (id :: issued w)
                 (pending w ++ [(id, λ self _ : nat, self)]) (current w)
                 (vars w ++ [RunningJoinable id])).
    assert (Hstart : Thread_start (λ self _ : nat, self) w0
                     = Returned (List.length (vars w)) w1) by reflexivity.
    destruct (Join_running w1 (List.length (vars w)) id (declared_handle _ _))
      as (w2 & Hjoin & Hvars & Hcur & Hmem).
    simpl in Hvars, Hcur, Hmem.
    rewrite complete_started_last in Hmem. simpl in Hmem.
    rewrite insert_app_r_alt, Nat.sub_diag in Hvars by lia. simpl in Hvars.
    unfold ThreadIsNotEqualToDifferentThread, block. fold w0.
    rewrite (and_then_returned _ _ _ _ _ Hstart),
      (and_then_returned _ _ _ _ _ Hjoin).
    unfold and_then, IsCurrentThread, unit_, leave_scope, passes.
    rewrite Hmem, Hcur, Hvars, (scope_of_retired _ Hscope).
    fold id in Hfresh. by rewrite Hfresh.
Qed.

Lemma thread_id_is_a_value_witness :
  IsCurrentThread 7 (main_thread 0) = Returned true (main_thread 0) ∧
  ThreadIsNotEqualToDifferentThread (main_thread 0) = true.
Proof.
  destruct (thread_id_is_a_value (main_thread 0) eq_refl)
    as (_ & Hsame & _ & _ & Hother).
  split; [exact Hsame|exact Hother].
Defined.

(** The tests of the repository pass on the model. *)
Lemma thread_tests_pass :
  ThreadExecutesAndJoinWaitsForItToFinish (main_thread true) = true ∧
  ThreadIsNotJoinableAfterJoin (main_thread tt) = true ∧
  ThreadIsNotJoinableAfterDetach (main_thread tt) = true ∧
  ThreadShouldNotBeJoinableAfterBeingMoveAssignedOutOf (main_thread tt) = true ∧
  ThreadShouldNotBeJoinableAfterBeingMoveFrom (main_thread tt) = true ∧
  MovingIntoRunningThreadShouldAbort (main_thread tt) = true ∧
  JoinEmptyThreadShouldAbort (main_thread tt) = true ∧
  JoinThreadMultipleTimesShouldAbort (main_thread tt) = true ∧
  JoinDetachedThreadShouldAbort (main_thread tt) = true ∧
  DetachJoinedThreadShouldAbort (main_thread tt) = true ∧
  DetachEmptyThreadShouldAbort (main_thread tt) = true ∧
  DetachThreadMultipleTimesShouldAbort (main_thread tt) = true ∧
  WhenJoinableThreadIsDestructedShouldAbort (main_thread tt) = true ∧
  ThreadIsEqualToItself (main_thread tt) = true ∧
  ThreadIsNotEqualToDifferentThread (main_thread 0) = true.
Proof. repeat split; vm_compute; reflexivity. Qed.

Lemma move_transfers_and_running_handle_is_guarded_witness :
  (∃ w', move_assign 1 0 (mkWorld 7 [8] [] tt [RunningJoinable 8; Empty])
           = Returned tt w' ∧
         vars w' !! 0 = Some Empty ∧ vars w' !! 1 = Some (RunningJoinable 8)) ∧
  move_assign 0 1 (mkWorld 7 [8] [] tt [RunningJoinable 8; Empty]) = Terminated ∧
  leave_scope (Returned tt (mkWorld 7 [8] [] tt [RunningJoinable 8; Empty]))
    = Terminated.
Proof.
  destruct (move_transfers_and_running_handle_is_guarded
              (mkWorld 7 [8] [] tt [RunningJoinable 8; Empty]) 0 8 eq_refl)
    as (_ & Hassign & Hinto & _ & Hleave & _).
  split; [|split; [exact (Hinto 1)|exact (Hleave unit tt)]].
  destruct (Hassign 1 Empty eq_refl eq_refl) as (w' & Hrun & Hsrc & Htgt & _).
  exists w'. split; [exact Hrun|]. split; [exact Hsrc|exact Htgt].
Defined.

Lemma refused_Join_and_Detach_throw_witness :
  Join 0 (mkWorld 7 [] [] tt [Empty]) = Thrown invalid_argument (mkWorld 7 [] [] tt [Empty]) ∧
  Detach 0 (mkWorld 7 [] [] tt [Empty]) = Thrown invalid_argument (mkWorld 7 [] [] tt [Empty]).
Proof.
  exact (refused_Join_and_Detach_throw (mkWorld 7 [] [] tt [Empty]) 0 Empty eq_refl).
Defined.

(** C6, as stated, fails: [Join] on an Empty handle does not terminate the
    process.  It throws, the test [JoinEmptyThreadShouldAbort] of the
    repository catches the error and passes; with the fail-fast policy of
    the specification the same test would not pass. *)
Lemma Join_on_empty_handle_is_caught :
  Join 0 (mkWorld 7 [] [] tt [Empty]) = Thrown invalid_argument (mkWorld 7 [] [] tt [Empty]) ∧
  Join 0 (mkWorld 7 [] [] tt [Empty]) ≠ Terminated ∧
  JoinEmptyThreadShouldAbort (main_thread tt) = true ∧
  EXPECT_THROW_ERROR_CODE
    (block (and_then Thread_default Join_fail_fast) (main_thread tt))
    invalid_argument = false.
Proof. repeat split; try reflexivity. discriminate. Qed.

End ThreadFacts.

(** * More of the Firestore lifecycle: how the operations compose *)

Module FirestoreMore.

Import Firestore FirestoreFacts.

(** ** What a successful creation leaves *)

Lemma GetInstance_creates factory owner out s :
  owner ≠ nullptr → registered s owner = None →
  fi_initialized (factory owner) = true →
  is_Some (notifiers s !! fi_app (factory owner)) →
  ∃ s' this,
    GetInstance factory owner out s = Ok (this, write_out out kInitResultSuccess) s' ∧
    this ≠ nullptr ∧ heap s !! this = None ∧
    heap s' = <[this := mkFirestore (Some (set_firestore_public this (factory owner)))]>
                (heap s) ∧
    g_firestores s'
      = Some (after_emplace (fi_app (factory owner)) this (g_firestores s)) ∧
    notifiers s'
      = alter (λ objs, objs ++ [this]) (fi_app (factory owner)) (notifiers s) ∧
    lock_depth s' = lock_depth s.
Proof.
  intros Howner Hreg Hinit Hnot.
  destruct (FindFirestoreInCache_missing (acquire s) owner out Hreg)
    as (s1 & Hfind & Hh1 & Hg1 & Hn1 & Hl1 & _).
  destruct (new_Firestore_runs (factory owner) s1)
    as (s2 & Hnew & Hh2 & Hg2 & Hn2 & Hl2 & _); [by rewrite Hn1|].
  destruct (unused_address_fresh s1) as [Hnonnull Hfresh].
  set (this := unused_address s1) in *.
  set (i := set_firestore_public this (factory owner)) in *.
  destruct (AddFirestoreToCache_initialized s2 this i out)
    as (s3 & Hadd & Hh3 & Hg3 & Hn3 & Hl3 & _);
    [unfold owns; rewrite Hh2; apply lookup_insert_eq | exact Hinit |].
  assert (Happ : fi_app i = fi_app (factory owner)) by reflexivity.
  assert (Hi : i = set_firestore_public this (factory owner)) by reflexivity.
  clearbody i this.
  unfold GetInstance, ValidateApp, MutexLock, bind.
  rewrite (app_nonnull owner Howner). simpl.
  rewrite Hfind. simpl. rewrite Hnew, Hadd.
  exists (release s3), this.
  split; [reflexivity|].
  change (heap (release s3)) with (heap s3).
  change (g_firestores (release s3)) with (g_firestores s3).
  change (notifiers (release s3)) with (notifiers s3).
  change (lock_depth (release s3)) with (pred (lock_depth s3)).
  change (heap (acquire s)) with (heap s) in Hh1.
  change (g_firestores (acquire s)) with (g_firestores s) in Hg1.
  change (notifiers (acquire s)) with (notifiers s) in Hn1.
  change (lock_depth (acquire s)) with (S (lock_depth s)) in Hl1.
  rewrite Hh1 in Hfresh. rewrite Hinit in Hn2.
  rewrite Hh3, Hh2, Hh1, Hg3, Hg2, Hg1, Hn3, Hn2, Hn1, Hl3, Hl2, Hl1, Happ, Hi.
  repeat split; done.
Qed.

Lemma registered_emplaced s s' owner this :
  registered s owner = None →
  g_firestores s' = Some (after_emplace owner this (g_firestores s)) →
  registered s' owner = Some this.
Proof.
  intros Hreg Hg. unfold registered. rewrite Hg. unfold after_emplace.
  assert (Hnone : default ∅ (g_firestores s) !! owner = None).
  { unfold registered in Hreg. destruct (g_firestores s); [done|].
    apply lookup_empty. }
  rewrite Hnone. apply lookup_insert_eq.
Qed.

Lemma registered_emplaced_other s s' x owner this :
  owner ≠ x →
  g_firestores s' = Some (after_emplace x this (g_firestores s)) →
  registered s' owner = registered s owner.
Proof.
  intros Hne Hg. unfold registered. rewrite Hg. unfold after_emplace.
  assert (Hsame : default ∅ (g_firestores s) !! owner
                  = match g_firestores s with
                    | Some cache => cache !! owner
                    | None => None
                    end).
  { destruct (g_firestores s); [done|]. apply lookup_empty. }
  destruct (default ∅ (g_firestores s) !! x); [done|].
  rewrite lookup_insert_ne; [done|congruence].
Qed.

(** X1: a second [GetInstance] for an owner returns the instance the first
    one created and registered; it writes success, creates no object and
    leaves registry and notifiers as the first call left them, whatever
    factory and result cell it is given. *)
Theorem GetInstance_again_returns_created factory factory' owner out out' s :
  owner ≠ nullptr → registered s owner = None →
  fi_initialized (factory owner) = true → fi_app (factory owner) = owner →
  is_Some (notifiers s !! owner) →
  ∃ s1 this,
    GetInstance factory owner out s = Ok (this, write_out out kInitResultSuccess) s1 ∧
    this ≠ nullptr ∧ registered s1 owner = Some this ∧
    GetInstance factory' owner out' s1
      = Ok (this, write_out out' kInitResultSuccess) (release (acquire s1)) ∧
    heap (release (acquire s1)) = heap s1 ∧
    g_firestores (release (acquire s1)) = g_firestores s1 ∧
    notifiers (release (acquire s1)) = notifiers s1 ∧
    lock_depth (release (acquire s1)) = lock_depth s1.
Proof.
  intros Howner Hreg Hinit Happ Hnot.
  destruct (GetInstance_creates factory owner out s Howner Hreg Hinit)
    as (s1 & this & Hrun & Hthis & _ & _ & Hg & _); [by rewrite Happ|].
  rewrite Happ in Hg.
  pose proof (registered_emplaced s s1 owner this Hreg Hg) as Hreg1.
  exists s1, this. repeat split; try done.
  by apply GetInstance_found.
Qed.

Lemma GetInstance_again_returns_created_witness :
  ∃ s1 this,
    GetInstance linked app_A None boot = Ok (this, None) s1 ∧
    GetInstance unlinked app_A (Some kInitResultFailedMissingDependency) s1
      = Ok (this, Some kInitResultSuccess) (release (acquire s1)).
Proof.
  assert (Howner : app_A ≠ nullptr) by discriminate.
  assert (Hnot : is_Some (notifiers boot !! app_A))
    by (vm_compute; eexists; reflexivity).
  destruct (GetInstance_again_returns_created linked unlinked app_A None
              (Some kInitResultFailedMissingDependency) boot Howner
              eq_refl eq_refl eq_refl Hnot)
    as (s1 & this & Hrun & _ & _ & Hagain & _).
  exists s1, this. split; [exact Hrun|exact Hagain].
Defined.

(** ** Creating and deleting *)

Lemma filter_others (this : N) (objs : list N) :
  (∀ o, o ∈ objs → o ≠ this) →
  filter (λ o, o ≠ this) (objs ++ [this]) = objs.
Proof.
  intros Hobjs. rewrite filter_app.
  assert (Hlast : filter (λ o, o ≠ this) [this] = []).
  { rewrite filter_cons. by destruct (decide (this ≠ this)). }
  rewrite Hlast, app_nil_r.
  induction objs as [|o objs IH]; [done|].
  rewrite filter_cons. destruct (decide (o ≠ this)) as [_|Heq].
  - f_equal. apply IH. intros o' Ho'. apply Hobjs. by right.
  - destruct Heq. apply Hobjs. by left.
Qed.

Lemma after_erase_emplaced owner this cache :
  cache ≠ Some ∅ →
  match cache with Some m => m !! owner | None => None end = None →
  after_erase owner (Some (after_emplace owner this cache)) = cache.
Proof.
  intros Hstorage Hreg. unfold after_erase, after_emplace.
  assert (Hnone : default ∅ cache !! owner = None).
  { destruct cache; [done|]. apply lookup_empty. }
  rewrite Hnone, (delete_insert_id _ _ _ Hnone).
  destruct cache as [m|]; simpl.
  - rewrite bool_decide_eq_false_2; [done|]. congruence.
  - by rewrite bool_decide_eq_true_2.
Qed.

(** X2: creating the instance of an owner and then deleting it is a round
    trip.  When the owner has no instance, the map is not left empty and
    the objects its notifier holds are live, [GetInstance] followed by
    [delete] of the returned instance ends with the objects, the registry
    (null again if it was null), the notifiers and the lock as they were:
    the constructor's registration and the destructor's deregistration
    cancel, and so do [emplace] and [erase]. *)
Theorem create_then_delete_restores factory owner out objs s :
  owner ≠ nullptr → registered s owner = None →
  storage_released_when_empty s →
  fi_initialized (factory owner) = true → fi_app (factory owner) = owner →
  notifiers s !! owner = Some objs →
  (∀ o, o ∈ objs → is_Some (heap s !! o)) →
  ∃ s1 this s2,
    GetInstance factory owner out s = Ok (this, write_out out kInitResultSuccess) s1 ∧
    registered s1 owner = Some this ∧
    delete_Firestore this s1 = Ok tt s2 ∧
    heap s2 = heap s ∧ g_firestores s2 = g_firestores s ∧
    notifiers s2 = notifiers s ∧ lock_depth s2 = lock_depth s.
Proof.
  intros Howner Hreg Hstorage Hinit Happ Hobjs Hlive.
  destruct (GetInstance_creates factory owner out s Howner Hreg Hinit)
    as (s1 & this & Hrun & Hthis & Hfresh & Hh1 & Hg1 & Hn1 & Hl1);
    [rewrite Happ; eauto|].
  rewrite Happ in Hg1, Hn1.
  set (i := set_firestore_public this (factory owner)) in *.
  assert (Hown : owns s1 this i) by (unfold owns; rewrite Hh1; apply lookup_insert_eq).
  assert (Hi : fi_app i = owner) by exact Happ.
  assert (Hii : fi_initialized i = true) by exact Hinit.
  destruct (DeleteInternal_owns s1 this i Hown)
    as (s2 & Hdel & Hh2 & Hg2 & Hn2 & Hl2 & _).
  { intros _. rewrite Hi, Hn1, lookup_alter_eq, Hobjs. eauto. }
  rewrite Hi in Hg2, Hn2. rewrite Hii in Hn2.
  exists s1, this. eexists. split; [exact Hrun|].
  split; [by apply (registered_emplaced s s1 owner this)|].
  unfold delete_Firestore, bind, modify. rewrite Hdel. simpl.
  split; [reflexivity|]. simpl.
  rewrite Hh2, Hh1, insert_insert_eq, (delete_insert_id _ _ _ Hfresh).
  rewrite Hg2, Hg1, Hn2, Hn1, Hl2, Hl1.
  repeat split; try done.
  - by apply after_erase_emplaced.
  - apply map_eq. intros a. destruct (decide (a = owner)) as [->|Hne].
    + rewrite !lookup_alter_eq, Hobjs. simpl. f_equal. apply filter_others.
      intros o Ho ->. destruct (Hlive this Ho) as [obj Hobj]. congruence.
    + by rewrite !lookup_alter_ne.
Qed.

Lemma create_then_delete_restores_witness :
  ∃ s1 this s2,
    GetInstance linked app_A None boot = Ok (this, None) s1 ∧
    delete_Firestore this s1 = Ok tt s2 ∧
    heap s2 = heap boot ∧ g_firestores s2 = g_firestores boot ∧
    notifiers s2 = notifiers boot.
Proof.
  assert (Howner : app_A ≠ nullptr) by discriminate.
  assert (Hstorage : storage_released_when_empty boot) by discriminate.
  assert (Hobjs : notifiers boot !! app_A = Some []) by (vm_compute; reflexivity).
  assert (Hlive : ∀ o : N, o ∈ @nil N → is_Some (heap boot !! o))
    by (intros o Ho; by apply not_elem_of_nil in Ho).
  destruct (create_then_delete_restores linked app_A None [] boot Howner
              eq_refl Hstorage eq_refl eq_refl Hobjs Hlive)
    as (s1 & this & s2 & Hrun & _ & Hdel & Hh & Hg & Hn & _).
  exists s1, this, s2. repeat split; done.
Defined.

(** ** [CreateFirestore] where the owner has no entry *)

Lemma CreateFirestore_as_GetInstance owner internal out s :
  registered s owner = None →
  CreateFirestore owner (Some internal) out s
    = GetInstance (λ _, internal) owner out s.
Proof.
  intros Hreg.
  destruct (FindFirestoreInCache_missing (acquire s) owner out Hreg)
    as (s1 & Hfind & _).
  unfold CreateFirestore, GetInstance, ValidateApp, MutexLock, bind.
  destruct (owner =? nullptr)%N; simpl; [reflexivity|].
  rewrite Hfind. reflexivity.
Qed.

(** X3: [CreateFirestore] for an owner without an entry, given an internal
    that is initialized and whose own app has a notifier, returns a new
    instance that owns the internal and writes success.  The instance is
    entered under the app of the internal, not under the [app] argument, and
    [emplace] does not replace an entry that app already has: the registry
    then keeps the older instance and the new one is returned unregistered.
    When the internal's app is another one than [app], [app] still has no
    entry afterwards. *)
Theorem CreateFirestore_registers_under_internal_app owner internal out s :
  owner ≠ nullptr → registered s owner = None →
  fi_initialized internal = true →
  is_Some (notifiers s !! fi_app internal) →
  ∃ s' this,
    CreateFirestore owner (Some internal) out s
      = Ok (this, write_out out kInitResultSuccess) s' ∧
    this ≠ nullptr ∧ heap s !! this = None ∧
    owns s' this (set_firestore_public this internal) ∧
    registered s' (fi_app internal)
      = Some (default this (registered s (fi_app internal))) ∧
    (fi_app internal ≠ owner → registered s' owner = None).
Proof.
  intros Howner Hreg Hinit Hnot.
  rewrite (CreateFirestore_as_GetInstance owner internal out s Hreg).
  destruct (GetInstance_creates (λ _, internal) owner out s Howner Hreg Hinit Hnot)
    as (s' & this & Hrun & Hthis & Hfresh & Hheap & Hg & _).
  exists s', this. repeat split; try done.
  - unfold owns. rewrite Hheap. apply lookup_insert_eq.
  - destruct (registered s (fi_app internal)) as [old|] eqn:Hold; simpl.
    + unfold registered in *. rewrite Hg. unfold after_emplace.
      destruct (g_firestores s) as [m|]; [|discriminate]. simpl.
      by rewrite Hold.
    + by apply (registered_emplaced s s').
  - intros Hne. rewrite <- Hreg.
    apply (registered_emplaced_other s s' (fi_app internal) owner this); [done|exact Hg].
Qed.

Lemma CreateFirestore_registers_under_internal_app_witness :
  ∃ s' this,
    CreateFirestore 7%N (Some (linked app_A)) None live = Ok (this, None) s' ∧
    this ≠ nullptr ∧
    registered s' app_A = Some the_instance ∧ registered s' 7%N = None.
Proof.
  assert (Howner : 7%N ≠ nullptr) by discriminate.
  assert (Hreg : registered live 7%N = None) by (vm_compute; reflexivity).
  assert (Hnot : is_Some (notifiers live !! fi_app (linked app_A)))
    by (vm_compute; eexists; reflexivity).
  destruct (CreateFirestore_registers_under_internal_app 7%N (linked app_A) None
              live Howner Hreg eq_refl Hnot)
    as (s' & this & Hrun & Hthis & _ & _ & Hunder & Hother).
  exists s', this. split; [exact Hrun|]. split; [exact Hthis|].
  split.
  - change (fi_app (linked app_A)) with app_A in Hunder.
    rewrite registered_live in Hunder. exact Hunder.
  - apply Hother. discriminate.
Defined.

(** X4: [CreateFirestore] with an internal that is not initialized returns
    null and writes MissingDependency; the object it constructed is freed
    and the objects are those before the call.  Its teardown erases the
    entry of the internal's app: an instance registered for that app, which
    is another one than the [app] argument that was looked up, loses its
    entry although it stays live. *)
Theorem CreateFirestore_uninitialized_erases_internal_app owner internal out s :
  owner ≠ nullptr → registered s owner = None →
  fi_initialized internal = false →
  ∃ s',
    CreateFirestore owner (Some internal) out s
      = Ok (nullptr, write_out out kInitResultFailedMissingDependency) s' ∧
    heap s' = heap s ∧ notifiers s' = notifiers s ∧
    lock_depth s' = lock_depth s ∧
    registered s' (fi_app internal) = None ∧
    (∀ other, other ≠ fi_app internal → registered s' other = registered s other).
Proof.
  intros Howner Hreg Hinit.
  rewrite (CreateFirestore_as_GetInstance owner internal out s Hreg).
  destruct (GetInstance_uninitialized (λ _, internal) owner out s Howner Hreg Hinit)
    as (s' & this & Hrun & _ & Hheap & Hg & Hn & Hl & _).
  exists s'. repeat split; try done.
  - unfold registered. rewrite Hg. unfold after_erase.
    destruct (bool_decide _); [done|]. apply lookup_delete_eq.
  - intros other Hne. unfold registered. rewrite Hg. unfold after_erase.
    assert (Hsame : default ∅ (g_firestores s) !! other
                    = match g_firestores s with
                      | Some cache => cache !! other
                      | None => None
                      end).
    { destruct (g_firestores s); [done|]. apply lookup_empty. }
    rewrite <- Hsame.
    destruct (bool_decide _) eqn:Hempty.
    + apply bool_decide_eq_true in Hempty.
      rewrite <- (lookup_delete_ne _ (fi_app internal) other) by congruence.
      by rewrite Hempty, lookup_empty.
    + rewrite lookup_delete_ne; [done|congruence].
Qed.

Lemma CreateFirestore_uninitialized_erases_internal_app_witness :
  registered live app_A = Some the_instance ∧
  ∃ s',
    CreateFirestore 7%N (Some (unlinked app_A)) None live = Ok (nullptr, None) s' ∧
    heap s' = heap live ∧ registered s' app_A = None.
Proof.
  assert (Howner : 7%N ≠ nullptr) by discriminate.
  assert (Hreg : registered live 7%N = None) by (vm_compute; reflexivity).
  split; [exact registered_live|].
  destruct (CreateFirestore_uninitialized_erases_internal_app 7%N
              (unlinked app_A) None live Howner Hreg eq_refl)
    as (s' & Hrun & Hheap & _ & _ & Hgone & _).
  exists s'. split; [exact Hrun|]. split; [exact Hheap|exact Hgone].
Defined.

(** ** After [Terminate] *)

Lemma Terminate_runs s this i :
  owns s this i →
  ∃ s', Terminate this s = Ok (BackendFuture this CallTerminate) s' ∧
    heap s' = heap s ∧
    g_firestores s' = Some (delete (fi_app i) (default ∅ (g_firestores s))) ∧
    notifiers s' = notifiers s ∧ lock_depth s' = lock_depth s.
Proof.
  intros Hown. unfold Terminate. rewrite (with_internal_owns _ _ _ _ _ Hown).
  unfold bind. rewrite (app_owns s this i Hown).
  unfold cache_erase, backend, FirestoreCache, bind, modify, ret.
  destruct (g_firestores s); simpl; eexists; (split; [reflexivity|]); done.
Qed.

(** X5: [Terminate] takes the instance out of the registry and leaves it
    alive with its internal, so the next [GetInstance] for the owner
    constructs a second instance beside it and both are live.  Deleting the
    terminated instance afterwards erases the owner's entry again, which by
    then designates the second instance: that one stays live and is no
    longer in the registry. *)
Theorem Terminate_GetInstance_delete factory owner this i out s :
  owner ≠ nullptr → owns s this i → fi_app i = owner →
  is_Some (notifiers s !! owner) →
  fi_initialized (factory owner) = true → fi_app (factory owner) = owner →
  ∃ s1 s2 second s3,
    Terminate this s = Ok (BackendFuture this CallTerminate) s1 ∧
    registered s1 owner = None ∧
    GetInstance factory owner out s1
      = Ok (second, write_out out kInitResultSuccess) s2 ∧
    second ≠ this ∧ registered s2 owner = Some second ∧
    owns s2 this i ∧
    owns s2 second (set_firestore_public second (factory owner)) ∧
    delete_Firestore this s2 = Ok tt s3 ∧
    registered s3 owner = None ∧ heap s3 !! this = None ∧
    owns s3 second (set_firestore_public second (factory owner)).
Proof.
  intros Howner Hown Happ Hnot Hinit Happ'.
  destruct (Terminate_runs s this i Hown) as (s1 & Hterm & Hh1 & Hg1 & Hn1 & _).
  rewrite Happ in Hg1.
  assert (Hreg1 : registered s1 owner = None).
  { unfold registered. rewrite Hg1. apply lookup_delete_eq. }
  destruct (GetInstance_creates factory owner out s1 Howner Hreg1 Hinit)
    as (s2 & second & Hrun & Hsecond & Hfresh & Hh2 & Hg2 & Hn2 & _);
    [by rewrite Happ', Hn1|].
  rewrite Happ' in Hg2, Hn2.
  assert (Hne : second ≠ this).
  { intros ->. unfold owns in Hown. rewrite Hh1 in Hfresh. congruence. }
  assert (Hown2 : owns s2 this i).
  { unfold owns in *. rewrite Hh2, lookup_insert_ne, Hh1; done. }
  assert (Hsecond2 : owns s2 second (set_firestore_public second (factory owner))).
  { unfold owns. rewrite Hh2. apply lookup_insert_eq. }
  destruct (DeleteInternal_owns s2 this i Hown2)
    as (s3 & Hdel & Hh3 & Hg3 & _).
  { intros _. rewrite Happ, Hn2, lookup_alter_eq, Hn1.
    destruct Hnot as [objs ->]. simpl. eauto. }
  rewrite Happ in Hg3.
  exists s1, s2, second. eexists.
  split; [exact Hterm|]. split; [exact Hreg1|]. split; [exact Hrun|].
  split; [exact Hne|].
  split; [by apply (registered_emplaced s1 s2)|].
  split; [exact Hown2|]. split; [exact Hsecond2|].
  unfold delete_Firestore, bind, modify. rewrite Hdel. simpl.
  split; [reflexivity|].
  repeat split.
  - unfold registered. simpl. rewrite Hg3. unfold after_erase.
    destruct (g_firestores s2); [|done].
    destruct (bool_decide _); [done|]. apply lookup_delete_eq.
  - simpl. apply lookup_delete_eq.
  - unfold owns in *. simpl.
    rewrite Hh3, lookup_delete_ne, lookup_insert_ne; done.
Qed.

Lemma Terminate_GetInstance_delete_witness :
  ∃ s1 s2 second s3,
    Terminate the_instance live = Ok (BackendFuture the_instance CallTerminate) s1 ∧
    GetInstance linked app_A None s1 = Ok (second, None) s2 ∧
    second ≠ the_instance ∧ registered s2 app_A = Some second ∧
    delete_Firestore the_instance s2 = Ok tt s3 ∧
    registered s3 app_A = None ∧
    owns s3 second (set_firestore_public second (linked app_A)).
Proof.
  assert (Howner : app_A ≠ nullptr) by discriminate.
  assert (Hown : owns live the_instance
            (set_firestore_public the_instance (linked app_A)))
    by (vm_compute; reflexivity).
  assert (Hnot : is_Some (notifiers live !! app_A))
    by (vm_compute; eexists; reflexivity).
  destruct (Terminate_GetInstance_delete linked app_A the_instance _ None live
              Howner Hown eq_refl Hnot eq_refl eq_refl)
    as (s1 & s2 & second & s3 & Hterm & _ & Hrun & Hne & Hreg2 & _ & _ & Hdel
        & Hreg3 & _ & Hlive).
  exists s1, s2, second, s3. repeat split; done.
Defined.

(** ** The owner goes first *)



(** ** Every way the calls can return *)

Lemma DeleteInternal_returns s this s' :
  DeleteInternal this s = Ok tt s' →
  (released s this ∧ s' = release (acquire s)) ∨
  (∃ i, owns s this i ∧
        heap s' = <[this := mkFirestore None]> (heap s) ∧
        g_firestores s' = after_erase (fi_app i) (g_firestores s) ∧
        notifiers s' =
          (if fi_initialized i
           then alter (filter (λ o, o ≠ this)) (fi_app i) (notifiers s)
           else notifiers s) ∧
        lock_depth s' = lock_depth s).
Proof.
  intros Hrun. destruct (heap s !! this) as [[[i|]]|] eqn:Hobj.
  - right. exists i.
    assert (Hnot : fi_initialized i = true → is_Some (notifiers s !! fi_app i)).
    { intros Hinit. destruct (notifiers s !! fi_app i) eqn:Hobjs; [eauto|].
      destruct (DeleteInternal_without_notifier s this i Hobj Hinit Hobjs)
        as [s1 Hrun1]. congruence. }
    destruct (DeleteInternal_owns s this i Hobj Hnot)
      as (s1 & Hrun1 & Hh & Hg & Hn & Hl & _).
    rewrite Hrun1 in Hrun. injection Hrun as <-. done.
  - left. rewrite (DeleteInternal_released s this Hobj) in Hrun.
    injection Hrun as <-. done.
  - destruct (DeleteInternal_dangling s this Hobj) as [s1 Hrun1]. congruence.
Qed.

Lemma delete_Firestore_returns s this s' :
  delete_Firestore this s = Ok tt s' →
  ∃ s1, DeleteInternal this s = Ok tt s1 ∧
        s' = emit (EvDelete this) (set_heap (delete this (heap s1)) s1).
Proof.
  unfold delete_Firestore, bind, modify.
  destruct (DeleteInternal this s) as [[] s1|e s1]; [|discriminate].
  intros [= <-]. eauto.
Qed.

Lemma OnAppDestroyed_returns s this s' :
  OnAppDestroyed this s = Ok tt s' →
  ∃ owner, DeleteInternal this (emit (EvLogWarning this owner) s) = Ok tt s'.
Proof.
  unfold OnAppDestroyed, bind, modify, app, bind, deref.
  destruct (heap s !! this) as [[[i|]]|]; simpl; [| |discriminate]; eauto.
Qed.

Lemma GetInstance_returns factory owner out s r s' :
  registered s owner ≠ Some nullptr →
  GetInstance factory owner out s = Ok r s' →
  (∃ this, registered s owner = Some this ∧ r.1 = this ∧ s' = release (acquire s)) ∨
  (registered s owner = None ∧ fi_initialized (factory owner) = false ∧
   r.1 = nullptr ∧ heap s' = heap s ∧
   g_firestores s'
     = after_erase (fi_app (factory owner)) (Some (default ∅ (g_firestores s))) ∧
   notifiers s' = notifiers s ∧ lock_depth s' = lock_depth s) ∨
  (registered s owner = None ∧ fi_initialized (factory owner) = true ∧
   r.1 ≠ nullptr ∧ heap s !! r.1 = None ∧
   heap s' = <[r.1 := mkFirestore (Some (set_firestore_public r.1 (factory owner)))]>
               (heap s) ∧
   g_firestores s'
     = Some (after_emplace (fi_app (factory owner)) r.1 (g_firestores s)) ∧
   notifiers s'
     = alter (λ objs, objs ++ [r.1]) (fi_app (factory owner)) (notifiers s) ∧
   lock_depth s' = lock_depth s).
Proof.
  intros Hnonnull Hrun.
  assert (Howner : owner ≠ nullptr).
  { intros ->. unfold GetInstance, ValidateApp, bind in Hrun. discriminate Hrun. }
  destruct (registered s owner) as [this|] eqn:Hreg.
  - left. exists this.
    rewrite (GetInstance_found factory owner this out s Howner Hreg) in Hrun
      by congruence.
    injection Hrun as <- <-. done.
  - right. destruct (fi_initialized (factory owner)) eqn:Hinit.
    + right. destruct (notifiers s !! fi_app (factory owner)) as [objs|] eqn:Hobjs.
      * destruct (GetInstance_creates factory owner out s Howner Hreg Hinit)
          as (s1 & this & Hrun1 & Facts); [eauto|].
        rewrite Hrun1 in Hrun. injection Hrun as <- <-. simpl. done.
      * destruct (GetInstance_without_notifier factory owner out s Howner Hreg
                    Hinit Hobjs) as [s1 Hrun1]. congruence.
    + left.
      destruct (GetInstance_uninitialized factory owner out s Howner Hreg Hinit)
        as (s1 & this & Hrun1 & _ & Hh & Hg & Hn & Hl & _).
      rewrite Hrun1 in Hrun. injection Hrun as <- <-. done.
Qed.

Lemma CreateFirestore_returns owner internal out s r s' :
  registered s owner ≠ Some nullptr →
  CreateFirestore owner internal out s = Ok r s' →
  ∃ i, internal = Some i ∧ registered s owner = None ∧
       GetInstance (λ _, i) owner out s = Ok r s'.
Proof.
  intros Hnonnull Hrun.
  assert (Howner : owner ≠ nullptr).
  { intros ->. unfold CreateFirestore, ValidateApp, bind in Hrun. discriminate Hrun. }
  destruct internal as [i|].
  - exists i. destruct (registered s owner) as [this|] eqn:Hreg.
    + rewrite (CreateFirestore_existing owner this i out s Howner Hreg) in Hrun
        by congruence.
      discriminate Hrun.
    + by rewrite (CreateFirestore_as_GetInstance owner i out s Hreg) in Hrun.
  - rewrite (CreateFirestore_null_internal owner out s Howner) in Hrun.
    discriminate Hrun.
Qed.

(** ** What every sequence of calls keeps *)

Lemma returned_Ok {A} (o : Outcome A) s' :
  returned o = Some s' → ∃ a, o = Ok a s'.
Proof. destruct o as [a s|e s]; [|discriminate]. intros [= <-]. eauto. Qed.

Lemma sound_not_null s owner : registry_sound s → registered s owner ≠ Some nullptr.
Proof. intros Hs Hreg. by destruct (Hs owner nullptr Hreg) as [Hnull _]. Qed.

Lemma delete_Firestore_keeps_registry_sound s this s' :
  registry_sound s → delete_Firestore this s = Ok tt s' → registry_sound s'.
Proof.
  intros Hs Hrun.
  destruct (delete_Firestore_returns s this s' Hrun) as (s1 & Hdel & ->).
  pose proof (DeleteInternal_keeps_registry_sound s this s1 Hs Hdel) as Hs1.
  pose proof (DeleteInternal_leaves_released s this s1 Hdel) as Hrel.
  intros owner f Hreg.
  destruct (Hs1 owner f Hreg) as (Hf & i & Hown & Hinit & Happ).
  split; [exact Hf|]. exists i. repeat split; try done.
  unfold owns, released in *. simpl. rewrite lookup_delete_ne; [done|].
  intros <-. congruence.
Qed.

Lemma perform_keeps_registry_sound call s s' :
  registry_sound s → perform call s = Some s' → registry_sound s'.
Proof.
  intros Hs Hrun. destruct call as [factory owner out|owner internal out|this|this|this];
    simpl in Hrun; apply returned_Ok in Hrun as [r Hrun].
  - destruct (decide (owner = nullptr)) as [->|Howner].
    + unfold GetInstance, ValidateApp, bind in Hrun. discriminate Hrun.
    + by destruct (GetInstance_keeps_registry_sound factory owner out s r s'
                     Howner Hs Hrun).
  - destruct (CreateFirestore_returns owner internal out s r s'
                (sound_not_null s owner Hs) Hrun) as (i & _ & _ & Hget).
    destruct (decide (owner = nullptr)) as [->|Howner].
    + unfold GetInstance, ValidateApp, bind in Hget. discriminate Hget.
    + by destruct (GetInstance_keeps_registry_sound _ owner out s r s'
                     Howner Hs Hget).
  - by apply (Terminate_keeps_registry_sound s this r).
  - destruct r. destruct (OnAppDestroyed_returns s this s' Hrun) as [owner Hdel].
    apply (DeleteInternal_keeps_registry_sound
             (emit (EvLogWarning this owner) s) this s'); [|exact Hdel].
    by apply (registry_sound_same s).
  - destruct r. by apply (delete_Firestore_keeps_registry_sound s this).
Qed.

(** X7: the registry is sound after every sequence of lifecycle calls that
    return ([GetInstance], [CreateFirestore], [Terminate], the owner's
    callback and [delete], in any order and with any arguments): each entry
    still designates a live [Firestore] that is not null, whose internal is
    initialized and belongs to the owner the entry is filed under.  So
    [GetInstance] never hands out a pointer to a deleted or released
    instance. *)
Theorem registry_sound_after_any_calls calls s s' :
  registry_sound s → perform_all calls s = Some s' → registry_sound s'.
Proof.
  revert s. induction calls as [|call rest IH]; intros s Hs Hrun; simpl in Hrun.
  - by injection Hrun as <-.
  - destruct (perform call s) as [s1|] eqn:Hcall; [|discriminate].
    apply (IH s1); [|exact Hrun].
    by apply (perform_keeps_registry_sound call s).
Qed.

Lemma registry_sound_after_any_calls_witness :
  match perform_all [DoGetInstance linked app_A None; DoTerminate 1%N;
                     DoGetInstance linked app_A None; DoDelete 1%N;
                     DoOnAppDestroyed 2%N] boot with
  | Some s' => registry_sound s'
  | None => False
  end.
Proof.
  destruct (perform_all _ boot) as [s'|] eqn:Hrun.
  - exact (registry_sound_after_any_calls _ boot s' registry_sound_boot Hrun).
  - vm_compute in Hrun. discriminate Hrun.
Defined.

Lemma after_emplace_not_empty owner this cache :
  after_emplace owner this cache ≠ ∅.
Proof.
  unfold after_emplace.
  destruct (default ∅ cache !! owner) eqn:Hx.
  - intros Hempty. by rewrite Hempty, lookup_empty in Hx.
  - apply insert_non_empty.
Qed.

Lemma Terminate_returns s this r s' :
  Terminate this s = Ok r s' →
  (released s this ∧ s' = s) ∨
  (∃ i, owns s this i ∧ heap s' = heap s ∧
        g_firestores s' = Some (delete (fi_app i) (default ∅ (g_firestores s))) ∧
        notifiers s' = notifiers s ∧ lock_depth s' = lock_depth s).
Proof.
  intros Hrun. destruct (heap s !! this) as [[[i|]]|] eqn:Hobj.
  - right. exists i. destruct (Terminate_runs s this i Hobj) as (s1 & Hrun1 & Facts).
    rewrite Hrun1 in Hrun. injection Hrun as <- <-. done.
  - left. unfold Terminate in Hrun. rewrite with_internal_released in Hrun by done.
    injection Hrun as <- <-. done.
  - unfold Terminate, with_internal, bind, deref in Hrun.
    rewrite Hobj in Hrun. discriminate Hrun.
Qed.

Lemma perform_keeps_storage call s s' :
  registry_sound s → storage_released_when_empty s → is_Terminate call = false →
  perform call s = Some s' → storage_released_when_empty s'.
Proof.
  unfold storage_released_when_empty. intros Hs Hst Hcall Hrun.
  assert (Hget : ∀ factory owner out r,
            GetInstance factory owner out s = Ok r s' → g_firestores s' ≠ Some ∅).
  { intros factory owner out r Hget.
    destruct (GetInstance_returns factory owner out s r s'
                (sound_not_null s owner Hs) Hget)
      as [(this & _ & _ & ->)|[(_ & _ & _ & _ & Hg & _)|(_ & _ & _ & _ & _ & Hg & _)]].
    - exact Hst.
    - rewrite Hg. apply after_erase_not_empty.
    - rewrite Hg. intros [= Hempty]. by apply after_emplace_not_empty in Hempty. }
  assert (Hdel : ∀ this s0 s1, g_firestores s0 = g_firestores s →
            DeleteInternal this s0 = Ok tt s1 → g_firestores s1 ≠ Some ∅).
  { intros this s0 s1 Hsame Hdel.
    destruct (DeleteInternal_returns s0 this s1 Hdel)
      as [[_ ->]|(i & _ & _ & Hg & _)].
    - simpl. by rewrite Hsame.
    - rewrite Hg. apply after_erase_not_empty. }
  destruct call as [factory owner out|owner internal out|this|this|this];
    try discriminate; simpl in Hrun; apply returned_Ok in Hrun as [r Hrun].
  - by apply (Hget factory owner out r).
  - destruct (CreateFirestore_returns owner internal out s r s'
                (sound_not_null s owner Hs) Hrun) as (i & _ & _ & Hrun').
    exact (Hget _ owner out r Hrun').
  - destruct r. destruct (OnAppDestroyed_returns s this s' Hrun) as [owner Hrun'].
    by apply (Hdel this (emit (EvLogWarning this owner) s) s').
  - destruct r. destruct (delete_Firestore_returns s this s' Hrun) as (s1 & Hrun' & ->).
    simpl. by apply (Hdel this s s1).
Qed.

(** X8: the global map exists only while it has entries.  After every
    sequence of [GetInstance], [CreateFirestore], owner callbacks and
    [delete]s that return, started where the registry is sound and the map
    is null or not empty, [g_firestores] is again null or a map that is not
    empty: a lookup that creates the map is followed by an [emplace] or by
    the teardown that deletes it.  [Terminate] is the one call left out. *)
Theorem storage_released_after_any_calls calls s s' :
  registry_sound s → storage_released_when_empty s →
  forallb (λ call, negb (is_Terminate call)) calls = true →
  perform_all calls s = Some s' →
  storage_released_when_empty s'.
Proof.
  revert s. induction calls as [|call rest IH]; intros s Hs Hst Hcalls Hrun;
    simpl in Hrun, Hcalls.
  - by injection Hrun as <-.
  - destruct (perform call s) as [s1|] eqn:Hcall; [|discriminate].
    apply andb_true_iff in Hcalls as [Hcall' Hrest].
    apply negb_true_iff in Hcall'.
    apply (IH s1); try done.
    + by apply (perform_keeps_registry_sound call s).
    + by apply (perform_keeps_storage call s).
Qed.

Lemma storage_released_after_any_calls_witness :
  match perform_all [DoGetInstance unlinked app_A None;
                     DoGetInstance linked app_A None;
                     DoCreateFirestore 7%N (Some (unlinked 8%N)) None;
                     DoOnAppDestroyed 1%N; DoDelete 1%N] boot with
  | Some s' => storage_released_when_empty s'
  | None => False
  end.
Proof.
  assert (Hst : storage_released_when_empty boot) by discriminate.
  destruct (perform_all _ boot) as [s'|] eqn:Hrun.
  - exact (storage_released_after_any_calls
             [DoGetInstance unlinked app_A None;
              DoGetInstance linked app_A None;
              DoCreateFirestore 7%N (Some (unlinked 8%N)) None;
              DoOnAppDestroyed 1%N; DoDelete 1%N]
             boot s' registry_sound_boot Hst eq_refl Hrun).
  - vm_compute in Hrun. discriminate Hrun.
Defined.

Lemma perform_keeps_lock call s s' :
  registry_sound s → perform call s = Some s' → lock_depth s' = lock_depth s.
Proof.
  intros Hs Hrun.
  assert (Hget : ∀ factory owner out r,
            GetInstance factory owner out s = Ok r s' → lock_depth s' = lock_depth s).
  { intros factory owner out r Hget.
    destruct (GetInstance_returns factory owner out s r s'
                (sound_not_null s owner Hs) Hget)
      as [(this & _ & _ & ->)|[(_ & _ & _ & _ & _ & _ & Hl)
                               |(_ & _ & _ & _ & _ & _ & _ & Hl)]]; done. }
  assert (Hdel : ∀ this s0 s1, lock_depth s0 = lock_depth s →
            DeleteInternal this s0 = Ok tt s1 → lock_depth s1 = lock_depth s).
  { intros this s0 s1 Hsame Hdel.
    destruct (DeleteInternal_returns s0 this s1 Hdel)
      as [[_ ->]|(i & _ & _ & _ & _ & Hl)]; [simpl|]; congruence. }
  destruct call as [factory owner out|owner internal out|this|this|this];
    simpl in Hrun; apply returned_Ok in Hrun as [r Hrun].
  - by apply (Hget factory owner out r).
  - destruct (CreateFirestore_returns owner internal out s r s'
                (sound_not_null s owner Hs) Hrun) as (i & _ & _ & Hrun').
    exact (Hget _ owner out r Hrun').
  - destruct (Terminate_returns s this r s' Hrun)
      as [[_ ->]|(i & _ & _ & _ & _ & Hl)]; done.
  - destruct r. destruct (OnAppDestroyed_returns s this s' Hrun) as [owner Hrun'].
    by apply (Hdel this (emit (EvLogWarning this owner) s) s').
  - destruct r. destruct (delete_Firestore_returns s this s' Hrun) as (s1 & Hrun' & ->).
    simpl. by apply (Hdel this s s1).
Qed.

(** X9: the lock is given back.  After every sequence of lifecycle calls
    that return, started where the registry is sound, the recursive lock is
    held as many times as before the first call, although [GetInstance] and
    [CreateFirestore] delete an instance that is not initialized, and so take
    the lock a second time, while they hold it. *)
Theorem lock_balanced_after_any_calls calls s s' :
  registry_sound s → perform_all calls s = Some s' →
  lock_depth s' = lock_depth s.
Proof.
  revert s. induction calls as [|call rest IH]; intros s Hs Hrun; simpl in Hrun.
  - by injection Hrun as <-.
  - destruct (perform call s) as [s1|] eqn:Hcall; [|discriminate].
    rewrite (IH s1); [by apply (perform_keeps_lock call s)| |exact Hrun].
    by apply (perform_keeps_registry_sound call s).
Qed.

Lemma lock_balanced_after_any_calls_witness :
  match perform_all [DoGetInstance unlinked app_A None;
                     DoGetInstance linked app_A None; DoTerminate 1%N;
                     DoDelete 1%N] boot with
  | Some s' => lock_depth s' = 0
  | None => False
  end.
Proof.
  destruct (perform_all _ boot) as [s'|] eqn:Hrun.
  - exact (lock_balanced_after_any_calls _ boot s' registry_sound_boot Hrun).
  - vm_compute in Hrun. discriminate Hrun.
Defined.

(** ** One instance at a time *)

Lemma registered_after_erase_frame x owner cache :
  owner ≠ x →
  match after_erase x cache with Some m => m !! owner | None => None end
    = match cache with Some m => m !! owner | None => None end.
Proof.
  intros Hne. unfold after_erase. destruct cache as [m|]; [|done].
  destruct (bool_decide _) eqn:Hempty.
  - apply bool_decide_eq_true in Hempty.
    rewrite <- (lookup_delete_ne m x owner) by congruence.
    by rewrite Hempty, lookup_empty.
  - rewrite lookup_delete_ne; [done|congruence].
Qed.

(** X10: deleting an instance concerns that instance and its owner only.
    Every other object is as it was, so is the registry entry of every
    other owner and the list of every other owner's notifier; of the
    owner's own notifier list exactly the instance is taken out, when it
    was initialized and therefore registered. *)
Theorem delete_leaves_the_others s this i objs :
  owns s this i → notifiers s !! fi_app i = Some objs →
  ∃ s',
    delete_Firestore this s = Ok tt s' ∧
    heap s' !! this = None ∧ registered s' (fi_app i) = None ∧
    (∀ other, other ≠ this → heap s' !! other = heap s !! other) ∧
    (∀ owner, owner ≠ fi_app i →
       registered s' owner = registered s owner ∧
       notifiers s' !! owner = notifiers s !! owner) ∧
    notifiers s' !! fi_app i
      = Some (if fi_initialized i then filter (λ o, o ≠ this) objs else objs).
Proof.
  intros Hown Hobjs.
  destruct (DeleteInternal_owns s this i Hown) as (s1 & Hdel & Hh & Hg & Hn & _);
    [eauto|].
  eexists. split.
  { unfold delete_Firestore, bind, modify. rewrite Hdel. reflexivity. }
  unfold registered. simpl. rewrite Hh, Hg, Hn. repeat split.
  - apply lookup_delete_eq.
  - unfold after_erase. destruct (g_firestores s); [|done].
    destruct (bool_decide _); [done|]. apply lookup_delete_eq.
  - intros other Hne. rewrite lookup_delete_ne, lookup_insert_ne; done.
  - by apply registered_after_erase_frame.
  - destruct (fi_initialized i); [|done]. rewrite lookup_alter_ne; done.
  - destruct (fi_initialized i); [|done]. by rewrite lookup_alter_eq, Hobjs.
Qed.

Lemma delete_leaves_the_others_witness :
  ∃ s',
    delete_Firestore the_instance live = Ok tt s' ∧
    heap s' !! the_instance = None ∧ registered s' app_A = None ∧
    notifiers s' !! app_A = Some [].
Proof.
  assert (Hown : owns live the_instance
            (set_firestore_public the_instance (linked app_A)))
    by (vm_compute; reflexivity).
  assert (Hobjs : notifiers live
                    !! fi_app (set_firestore_public the_instance (linked app_A))
                  = Some [the_instance]) by (vm_compute; reflexivity).
  destruct (delete_leaves_the_others live the_instance _ _ Hown Hobjs)
    as (s' & Hrun & Hgone & Hreg & _ & _ & Hn).
  exists s'. split; [exact Hrun|]. split; [exact Hgone|]. split; [exact Hreg|].
  change (fi_app (set_firestore_public the_instance (linked app_A)))
    with app_A in Hn.
  rewrite Hn. vm_compute. reflexivity.
Defined.

(** ** Paths given as strings *)

Lemma c_str_cuts (str : string) :
  ∃ rest, str = (c_str str ++ rest)%string ∧
          (rest = EmptyString ∨ first_is_nul rest = true).
Proof.
  induction str as [|c str (rest & Hstr & Hrest)]; simpl.
  - exists EmptyString. by split; [|left].
  - destruct (Ascii.eqb c zero) eqn:Hc; simpl.
    + exists (String c str). split; [done|]. right. simpl. exact Hc.
    + exists rest. split; [|exact Hrest].
      change (String c str = String c (c_str str ++ rest)). by rewrite <- Hstr.
Qed.

Lemma c_str_has_no_nul (str : string) :
  Forall (λ c, c ≠ zero) (list_ascii_of_string (c_str str)).
Proof.
  induction str as [|c str IH]; simpl; [constructor|].
  destruct (Ascii.eqb c zero) eqn:Hc; simpl; [constructor|].
  constructor; [|exact IH]. by apply Ascii.eqb_neq.
Qed.

Lemma first_is_nul_c_str (str : string) :
  first_is_nul (c_str str) = first_is_nul str.
Proof.
  destruct str as [|c str]; simpl; [done|].
  destruct (Ascii.eqb c zero) eqn:Hc; simpl; [done|exact Hc].
Qed.

(** X11: what the [std::string] overloads do with their argument on a live
    instance.  [Collection] and [Document] raise InvalidArgument exactly
    when the string is empty or begins with a NUL character, and otherwise
    return a reference for the characters before the first NUL, which are a
    prefix of the string without any NUL; [CollectionGroup] takes the same
    prefix and never raises.  None of them changes the state. *)
Theorem string_paths_end_at_first_nul s this i str :
  owns s this i →
  Collection_string this str s
    = (if first_is_nul str
       then Failed (InvalidArgument "Collection path cannot be empty.") s
       else Ok (CollectionReference_of this (c_str str)) s) ∧
  Document_string this str s
    = (if first_is_nul str
       then Failed (InvalidArgument "Document path cannot be empty.") s
       else Ok (DocumentReference_of this (c_str str)) s) ∧
  CollectionGroup_string this str s = Ok (Query_group this (c_str str)) s ∧
  Forall (λ c, c ≠ zero) (list_ascii_of_string (c_str str)) ∧
  ∃ rest, str = (c_str str ++ rest)%string ∧
          (rest = EmptyString ∨ first_is_nul rest = true).
Proof.
  intros Hown.
  unfold Collection_string, Document_string, CollectionGroup_string,
    Collection, Document.
  rewrite first_is_nul_c_str.
  destruct (first_is_nul str); rewrite ?(with_internal_owns _ _ _ _ _ Hown);
    (repeat split; [apply c_str_has_no_nul|apply c_str_cuts]).
Qed.

Lemma string_paths_end_at_first_nul_witness :
  Collection_string the_instance (String "a" (String zero "b")) live
    = Ok (CollectionReference_of the_instance "a") live ∧
  Document_string the_instance (String zero "b") live
    = Failed (InvalidArgument "Document path cannot be empty.") live.
Proof.
  assert (Hown : owns live the_instance
            (set_firestore_public the_instance (linked app_A)))
    by (vm_compute; reflexivity).
  split.
  - exact (proj1 (string_paths_end_at_first_nul live the_instance _
                    (String "a" (String zero "b")) Hown)).
  - exact (proj1 (proj2 (string_paths_end_at_first_nul live the_instance _
                           (String zero "b") Hown))).
Defined.

(** ** The client language *)

Lemma DeleteInternal_keeps_language this s :
  client_language (final_state (DeleteInternal this s)) = client_language s ∧
  platform (final_state (DeleteInternal this s)) = platform s ∧
  compiler_info (final_state (DeleteInternal this s)) = compiler_info s.
Proof.
  unfold DeleteInternal, MutexLock, app, FindByOwner, UnregisterObject,
    ClearListeners, CleanupAll, release_internal, cache_erase,
    release_cache_if_empty, FirestoreCache, update_internal, assert_notifier,
    modify, gets, bind, deref, ret, raise.
  destruct (heap s !! this) as [[[i|]]|] eqn:Hown; [| |simpl; by rewrite Hown].
  - destruct (fi_initialized i) eqn:Hinit;
      [destruct (notifiers s !! fi_app i) as [objs|] eqn:Hobjs|];
      destruct (g_firestores s) as [m|] eqn:Hg;
      repeat (simpl; first [rewrite Hown | rewrite Hinit | rewrite Hobjs | rewrite Hg
                           | rewrite lookup_insert_eq | rewrite delete_empty]);
      simpl; try destruct (bool_decide (delete (fi_app i) m = ∅)); done.
  - simpl. rewrite Hown. done.
Qed.

Lemma new_Firestore_announces i s :
  client_language (final_state (new_Firestore i s)) = announced s ∧
  platform (final_state (new_Firestore i s)) = platform s ∧
  compiler_info (final_state (new_Firestore i s)) = compiler_info s.
Proof.
  unfold new_Firestore, SetClientLanguage, update_internal, app, FindByOwner,
    assert_notifier, RegisterObject, announced, modify, gets, bind, deref,
    ret, raise.
  set (this := unused_address s).
  destruct (fi_initialized i) eqn:Hinit;
    [destruct (notifiers s !! fi_app i) as [objs|] eqn:Hobjs|];
    repeat (simpl; first [rewrite Hinit | rewrite Hobjs | rewrite lookup_insert_eq]);
    done.
Qed.

Lemma AddFirestoreToCache_keeps_language this out s :
  client_language (final_state (AddFirestoreToCache this out s)) = client_language s ∧
  platform (final_state (AddFirestoreToCache this out s)) = platform s ∧
  compiler_info (final_state (AddFirestoreToCache this out s)) = compiler_info s.
Proof.
  pose proof (DeleteInternal_keeps_language this s) as Hdel.
  unfold AddFirestoreToCache, CheckInitialized, delete_Firestore, cache_emplace,
    FirestoreCache, app, modify, bind, deref, ret, raise.
  destruct (heap s !! this) as [[[i|]]|] eqn:Hown; simpl; try done.
  destruct (fi_initialized i); simpl.
  - rewrite Hown. simpl. by destruct (g_firestores s).
  - by destruct (DeleteInternal this s).
Qed.

(** X12: the constructor announces the client language before it looks at
    [initialized()].  A [GetInstance] that finds no instance for the owner
    therefore sets the process-wide client language to "gl-cpp/", the
    compiler, a space and the platform token, also when it then returns
    null with MissingDependency or stops at the notifier assertion; a
    [GetInstance] that finds the instance leaves the client language as it
    is. *)
Theorem GetInstance_announces_unless_found factory owner out s :
  owner ≠ nullptr → registered s owner ≠ Some nullptr →
  client_language (final_state (GetInstance factory owner out s))
    = match registered s owner with
      | Some _ => client_language s
      | None => announced s
      end.
Proof.
  intros Howner Hnonnull.
  destruct (registered s owner) as [this|] eqn:Hreg.
  - rewrite (GetInstance_found factory owner this out s Howner Hreg) by congruence.
    reflexivity.
  - destruct (FindFirestoreInCache_missing (acquire s) owner out Hreg)
      as (s1 & Hfind & _).
    assert (Hs1 : announced s1 = announced s).
    { unfold FindFirestoreInCache, FirestoreCache, bind, ret in Hfind.
      destruct (g_firestores (acquire s)) as [m|]; simpl in Hfind;
        [destruct (m !! owner)|]; by inversion Hfind. }
    destruct (new_Firestore_announces (factory owner) s1) as [Hnew _].
    unfold GetInstance, ValidateApp, MutexLock, bind.
    rewrite (app_nonnull owner Howner). simpl. rewrite Hfind. simpl.
    destruct (new_Firestore (factory owner) s1) as [this s2|e s2]; simpl in Hnew.
    + destruct (AddFirestoreToCache_keeps_language this out s2) as [Hadd _].
      destruct (AddFirestoreToCache this out s2) as [r s3|e s3]; simpl in Hadd.
      * simpl. by rewrite Hadd, Hnew.
      * destruct (is_fatal e); simpl; by rewrite Hadd, Hnew.
    + destruct (is_fatal e); simpl; by rewrite Hnew.
Qed.

Lemma GetInstance_announces_unless_found_witness :
  client_language (final_state (GetInstance unlinked app_A None boot))
    = "gl-cpp/GCC-9 gl-linux/"%string ∧
  client_language boot = EmptyString.
Proof.
  assert (Howner : app_A ≠ nullptr) by discriminate.
  assert (Hnonnull : registered boot app_A ≠ Some nullptr) by discriminate.
  split; [|reflexivity].
  rewrite (GetInstance_announces_unless_found unlinked app_A None boot Howner
             Hnonnull).
  reflexivity.
Defined.

End FirestoreMore.

(** * More of the thread handle: the tests in every world *)

Module ThreadMore.

Import Thread ThreadFacts.

Section Tests.

Context {S : Type}.
Implicit Types (w : World S) (h : Handle) (v : nat).

Lemma scope_without_joinable (l : list Handle) h :
  forallb destroy l = true → Joinable h = false →
  forallb destroy (rev (l ++ [h])) = true.
Proof.
  intros Hl Hh. rewrite rev_app_distr. simpl.
  apply andb_true_iff. split; [unfold destroy; by rewrite Hh|].
  rewrite forallb_forall in *. intros h' Hin. apply Hl. by apply in_rev.
Qed.

Lemma IsJoinable_reads w v h :
  vars w !! v = Some h → IsJoinable v w = Returned (Joinable h) w.
Proof.
  intros Hv. unfold IsJoinable, and_then. by rewrite (read_some w v h Hv).
Qed.

Lemma replaced_last (l : list Handle) h h' :
  <[List.length l := h']> (l ++ [h]) = l ++ [h'].
Proof. rewrite insert_app_r_alt, Nat.sub_diag by lia. reflexivity. Qed.

(** The world right after [firebase::Thread thread(callable)]. *)
Lemma started w (callable : nat → S → S) :
  Thread_start callable w
    = Returned (List.length (vars w))
        (mkWorld (current w) (fresh_id w :: issued w)
           (pending w ++ [(fresh_id w, callable)]) (memory w)
           (vars w ++ [RunningJoinable (fresh_id w)])).
Proof. reflexivity. Qed.

Lemma joinable_then_retired w (after_start : World S) (finish : nat → T S ()) final :
  forallb destroy (vars w) = true →
  vars after_start = vars w ++ [RunningJoinable (fresh_id w)] →
  finish (List.length (vars w)) after_start = Returned tt final →
  (∃ h, Joinable h = false ∧ vars final = vars w ++ [h]) →
  passes (leave_scope
    (and_then (IsJoinable (List.length (vars w))) (λ before,
       if negb (bool_decide (before = true)) then unit_ false
       else and_then (finish (List.length (vars w))) (λ _,
            and_then (IsJoinable (List.length (vars w))) (λ after,
            unit_ (bool_decide (after = false)))))
       after_start)) = true.
Proof.
  intros Hscope Hvars Hfinish (h & Hh & Hfinal).
  rewrite (and_then_returned _ _ _ _ _
             (IsJoinable_reads after_start _ (RunningJoinable (fresh_id w))
                ltac:(rewrite Hvars; apply declared_handle))).
  simpl. rewrite (and_then_returned _ _ _ _ _ Hfinish).
  rewrite (and_then_returned _ _ _ _ _
             (IsJoinable_reads final _ h
                ltac:(rewrite Hfinal; apply declared_handle))).
  rewrite Hh. unfold unit_, leave_scope, passes. simpl.
  by rewrite Hfinal, (scope_without_joinable _ h Hscope Hh).
Qed.

End Tests.

(** X13: the three tests that start a thread and join or detach it hold in
    every world whose scope holds no handle left joinable, not only at the
    start of a test run.  A started handle is joinable; after [Join] the
    work of the unit has been done (the value it sets is visible to the
    caller) and the handle is not joinable; after [Detach] the handle is not
    joinable either; the scope can then be left without ending the
    process. *)
Theorem started_thread_is_joinable_until_Join_or_Detach (w : World bool) :
  forallb destroy (vars w) = true →
  ThreadExecutesAndJoinWaitsForItToFinish w = true ∧
  ThreadIsNotJoinableAfterJoin w = true ∧
  ThreadIsNotJoinableAfterDetach w = true.
Proof.
  intros Hscope. split; [|split].
  - set (w0 := set_memory false w).
    unfold ThreadExecutesAndJoinWaitsForItToFinish, block. fold w0.
    rewrite (and_then_returned _ _ _ _ _ (started w0 (λ _ _, true))).
    destruct (Join_running
                (mkWorld (current w0) (fresh_id w0 :: issued w0)
                   (pending w0 ++ [(fresh_id w0, λ (_ : nat) (_ : bool), true)])
                   (memory w0) (vars w0 ++ [RunningJoinable (fresh_id w0)]))
                (List.length (vars w0)) (fresh_id w0) (declared_handle _ _))
      as (w2 & Hjoin & Hvars & _ & Hmem).
    simpl in Hvars, Hmem. rewrite complete_started_last in Hmem. simpl in Hmem.
    rewrite replaced_last in Hvars.
    rewrite (and_then_returned _ _ _ _ _ Hjoin).
    unfold leave_scope, passes. rewrite Hmem, Hvars.
    by rewrite (scope_without_joinable _ Retired Hscope).
  - unfold ThreadIsNotJoinableAfterJoin, block.
    rewrite (and_then_returned _ _ _ _ _ (started w nothing)).
    destruct (Join_running
                (mkWorld (current w) (fresh_id w :: issued w)
                   (pending w ++ [(fresh_id w, nothing)])
                   (memory w) (vars w ++ [RunningJoinable (fresh_id w)]))
                (List.length (vars w)) (fresh_id w) (declared_handle _ _))
      as (w2 & Hjoin & Hvars & _).
    simpl in Hvars. rewrite replaced_last in Hvars.
    apply (joinable_then_retired w _ Join w2); try done. by exists Retired.
  - unfold ThreadIsNotJoinableAfterDetach, block.
    rewrite (and_then_returned _ _ _ _ _ (started w nothing)).
    destruct (Detach_running
                (mkWorld (current w) (fresh_id w :: issued w)
                   (pending w ++ [(fresh_id w, nothing)])
                   (memory w) (vars w ++ [RunningJoinable (fresh_id w)]))
                (List.length (vars w)) (fresh_id w) (declared_handle _ _))
      as (w2 & Hdet & Hvars & _).
    simpl in Hvars. rewrite replaced_last in Hvars.
    apply (joinable_then_retired w _ Detach w2); try done.
    by exists (RunningDetached (fresh_id w)).
Qed.

Lemma started_thread_is_joinable_until_Join_or_Detach_witness :
  ThreadExecutesAndJoinWaitsForItToFinish
    (mkWorld 3 [5] [] true [RunningDetached 5; Empty]) = true ∧
  ThreadIsNotJoinableAfterDetach
    (mkWorld 3 [5] [] true [RunningDetached 5; Empty]) = true.
Proof.
  destruct (started_thread_is_joinable_until_Join_or_Detach
              (mkWorld 3 [5] [] true [RunningDetached 5; Empty]) eq_refl)
    as (Hwaits & _ & Hdetach).
  split; [exact Hwaits|exact Hdetach].
Defined.

End ThreadMore.
